(** * Minesweeper knowledge-based solver: shallow embedding and properties

    The development embeds [Sentence] and [MinesweeperAI] of
    [minesweeper/minesweeper.py].  Python sets of cells are finite sets
    ([gset]) of integer pairs, the knowledge list is a [list] of sentence
    records, in-place mutation is explicit state passing, the [while] loop
    of [add_knowledge] runs on fuel, and the only exception the code can
    raise ([ValueError] of [list.remove]) is a constructor of [result]. *)

From Stdlib Require Import ZArith Lia.
From stdpp Require Import base decidable option list sets gmap fin_sets strings.

Local Open Scope Z_scope.
#[local] Set Warnings "-clear-no-such-hyp".

(** ** The game (the oracle of the solver) *)

(** [class Minesweeper]: the fields read by [nearby_mines]; [board] is
    the list of rows of booleans built by [__init__]. *)
Record Minesweeper : Type := mkMinesweeper {
  game_height : Z;
  game_width : Z;
  board : list (list bool)
}.

(** [self.board[i][j]], read only under the bounds test. *)
Definition board_at (g : Minesweeper) (i j : Z) : bool :=
  default false (row ← board g !! Z.to_nat i; row !! Z.to_nat j).

(** [Minesweeper.nearby_mines]: [range(c - 1, c + 2)] is [c-1, c, c+1]. *)
Definition nearby_mines (g : Minesweeper) (cell : Z * Z) : Z :=
  foldl (λ count ij,
           if decide (ij = cell) then count
           else if decide ((0 ≤ ij.1 < game_height g)
                           ∧ (0 ≤ ij.2 < game_width g))
                then (if board_at g ij.1 ij.2 then count + 1 else count)
                else count)
        0
        ([cell.1 - 1; cell.1; cell.1 + 1] ≫= λ i,
           pair i <$> [cell.2 - 1; cell.2; cell.2 + 1]).

(** ** Cells and sentences *)

(** A cell is a Python tuple [(i, j)] of integers. *)
Abbreviation Cell := (Z * Z)%type.

(** [class Sentence]: [self.cells] (a set) and [self.count] (an int). *)
Record Sentence : Type := mkSentence {
  cells : gset Cell;
  count : Z
}.

(** [Sentence.__eq__]: equal cell sets and equal counts.  On [gset] this
    is Leibniz equality of the records. *)
#[global] Instance Sentence_eq_dec : EqDecision Sentence.
Proof. solve_decision. Defined.

(** [len(self.cells)] as a Python int. *)
Definition len (X : gset Cell) : Z := Z.of_nat (size X).

Module Sentence.

(** [known_mines]: [self.cells] when [self.count == len(self.cells)],
    otherwise the method falls off its end and returns [None]. *)
Definition known_mines (s : Sentence) : option (gset Cell) :=
  if decide (count s = len (cells s)) then Some (cells s) else None.

(** [known_safes]: [self.cells] when [self.count == 0], else [None]. *)
Definition known_safes (s : Sentence) : option (gset Cell) :=
  if decide (count s = 0) then Some (cells s) else None.

(** [mark_mine]: guarded [self.cells.remove(cell)] and [self.count -= 1]. *)
Definition mark_mine (cell : Cell) (s : Sentence) : Sentence :=
  if decide (cell ∈ cells s)
  then mkSentence (cells s ∖ {[ cell ]}) (count s - 1)
  else s.

(** [mark_safe]: guarded [self.cells.remove(cell)]; the count stays. *)
Definition mark_safe (cell : Cell) (s : Sentence) : Sentence :=
  if decide (cell ∈ cells s)
  then mkSentence (cells s ∖ {[ cell ]}) (count s)
  else s.

End Sentence.

(** ** Results of effectful code *)

Inductive exn : Type :=
| ValueError.   (* [list.remove(x)]: x not in list *)

Inductive result (A : Type) : Type :=
| Ret (a : A)
| Raise (e : exn)
| OutOfFuel.
Arguments Ret {A} a.
Arguments Raise {A} e.
Arguments OutOfFuel {A}.

(** Sequencing: an exception or the end of the fuel ends the computation.
    With this instance stdpp's [x ← m; k] notation applies to [result]. *)
#[global] Instance result_bind : MBind result := λ A B k m,
  match m with
  | Ret a => k a
  | Raise e => Raise e
  | OutOfFuel => OutOfFuel
  end.

(** ** The solver state *)

(** [class MinesweeperAI]: the fields set by [__init__]. *)
Record MinesweeperAI : Type := mkAI {
  height : Z;
  width : Z;
  moves_made : gset Cell;
  mines : gset Cell;
  safes : gset Cell;
  knowledge : list Sentence
}.

(** [MinesweeperAI(height, width)]. *)
Definition init (h w : Z) : MinesweeperAI := mkAI h w ∅ ∅ ∅ [].

(** [MinesweeperAI.mark_mine]. *)
Definition mark_mine (cell : Cell) (ai : MinesweeperAI) : MinesweeperAI :=
  mkAI (height ai) (width ai) (moves_made ai)
       ({[ cell ]} ∪ mines ai) (safes ai)
       (Sentence.mark_mine cell <$> knowledge ai).

(** [MinesweeperAI.mark_safe]. *)
Definition mark_safe (cell : Cell) (ai : MinesweeperAI) : MinesweeperAI :=
  mkAI (height ai) (width ai) (moves_made ai)
       (mines ai) ({[ cell ]} ∪ safes ai)
       (Sentence.mark_safe cell <$> knowledge ai).

(** [for cell in X: self.mark_mine(cell)] and the same for [mark_safe];
    the iteration visits the elements of the set in some order. *)
Definition mark_mines (X : gset Cell) (ai : MinesweeperAI)
    : MinesweeperAI :=
  set_fold mark_mine ai X.
Definition mark_safes (X : gset Cell) (ai : MinesweeperAI)
    : MinesweeperAI :=
  set_fold mark_safe ai X.

(** The [directions] list of [find_unexplored_neighbors], as [(dy, dx)]. *)
Definition directions : list (Z * Z) :=
  [(0, 1); (0, -1); (1, 0); (-1, 0); (1, 1); (-1, -1); (1, -1); (-1, 1)].

(** The bounds test [0 <= y < self.height and 0 <= x < self.width]. *)
Definition in_bounds (ai : MinesweeperAI) (c : Cell) : Prop :=
  0 ≤ c.1 < height ai ∧ 0 ≤ c.2 < width ai.

#[global] Instance in_bounds_dec ai c : Decision (in_bounds ai c).
Proof. unfold in_bounds. apply _. Defined.

(** [MinesweeperAI.find_unexplored_neighbors]. *)
Definition find_unexplored_neighbors (ai : MinesweeperAI) (cell : Cell)
    : gset Cell :=
  foldl (λ neighbors d,
           let neighbor_cell := (cell.1 + d.1, cell.2 + d.2) in
           if decide (in_bounds ai neighbor_cell
                      ∧ neighbor_cell ∉ moves_made ai ∪ safes ai ∪ mines ai)
           then neighbors ∪ {[ neighbor_cell ]}
           else neighbors)
        ∅ directions.

(** ** [add_knowledge], before the loop (lines 192-205) *)

Definition record_move (cell : Cell) (ai : MinesweeperAI) : MinesweeperAI :=
  mkAI (height ai) (width ai) ({[ cell ]} ∪ moves_made ai)
       (mines ai) (safes ai) (knowledge ai).

Definition append_sentence (s : Sentence) (ai : MinesweeperAI)
    : MinesweeperAI :=
  mkAI (height ai) (width ai) (moves_made ai) (mines ai) (safes ai)
       (knowledge ai ++ [s]).

(** Lines 193-194: the move is recorded and the cell marked safe. *)
Definition revealed (cell : Cell) (ai : MinesweeperAI) : MinesweeperAI :=
  mark_safe cell (record_move cell ai).

(** Lines 193-205. *)
Definition ingest (cell : Cell) (cnt : Z) (ai : MinesweeperAI)
    : MinesweeperAI :=
  let ai1 := revealed cell ai in
  let unexplored_neighbors := find_unexplored_neighbors ai1 cell in
  if decide (cnt = 0) then mark_safes unexplored_neighbors ai1
  else if decide (len unexplored_neighbors ≤ cnt)
       then mark_mines unexplored_neighbors ai1
       else append_sentence (mkSentence unexplored_neighbors cnt) ai1.

(** ** One pass of the loop (lines 209-251) *)

(** Lines 213-218: the cells of sentences with [len(cells) == count] that
    are in neither [self.mines] nor [mines_to_be_marked] yet. *)
Definition collect_mines (ai : MinesweeperAI) : gset Cell :=
  foldl (λ to_be_marked s,
           if decide (len (cells s) = count s)
           then set_fold (λ cell acc,
                            if decide (cell ∉ mines ai ∪ acc)
                            then {[ cell ]} ∪ acc else acc)
                         to_be_marked (cells s)
           else to_be_marked)
        ∅ (knowledge ai).

(** [list.remove(x)]: drops the first element equal to [x], raises
    [ValueError] when there is none. *)
Fixpoint list_remove (x : Sentence) (l : list Sentence)
    : result (list Sentence) :=
  match l with
  | [] => Raise ValueError
  | y :: l' => if decide (y = x) then Ret l'
               else r ← list_remove x l'; Ret (y :: r)
  end.

(** Lines 226-233: iterate over the copy [temp_knowledge]; a sentence with
    count 0 contributes its not yet safe cells and is removed from
    [self.knowledge]. *)
Fixpoint collect_safes (safes0 : gset Cell) (temp : list Sentence)
    (to_be_marked : gset Cell) (kn : list Sentence)
    : result (gset Cell * list Sentence) :=
  match temp with
  | [] => Ret (to_be_marked, kn)
  | s :: temp' =>
      if decide (count s = 0) then
        let to_be_marked' :=
          set_fold (λ cell acc,
                      if decide (cell ∉ safes0 ∪ acc)
                      then {[ cell ]} ∪ acc else acc)
                   to_be_marked (cells s) in
        kn' ← list_remove s kn;
        collect_safes safes0 temp' to_be_marked' kn'
      else collect_safes safes0 temp' to_be_marked kn
  end.

Definition set_knowledge (kn : list Sentence) (ai : MinesweeperAI)
    : MinesweeperAI :=
  mkAI (height ai) (width ai) (moves_made ai) (mines ai) (safes ai) kn.

(** Line 245: [Sentence(b.cells - a.cells, b.count - a.count)]. *)
Definition difference (a b : Sentence) : Sentence :=
  mkSentence (cells b ∖ cells a) (count b - count a).

(** Lines 244-247 for one ordered pair, [queue] being [new_knowledge]. *)
Definition infer_pair (kn : list Sentence) (queue : list Sentence)
    (ab : Sentence * Sentence) : list Sentence :=
  let '(a, b) := ab in
  if decide (cells a ≠ cells b ∧ cells a ⊆ cells b) then
    let new_sentence := difference a b in
    if decide ((new_sentence ∉ kn) ∧ (new_sentence ∉ queue))
    then queue ++ [new_sentence] else queue
  else queue.

(** The ordered pairs in the order of the two nested [for] loops. *)
Definition pairs (kn : list Sentence) : list (Sentence * Sentence) :=
  kn ≫= λ a, pair a <$> kn.

(** Lines 241-247: the list [new_knowledge] after the nested loops. *)
Definition infer_subsets (kn : list Sentence) : list Sentence :=
  foldl (infer_pair kn) [] (pairs kn).

(** What one pass reports besides the new state. *)
Record pass_report : Type := mkReport {
  mines_to_be_marked : gset Cell;
  safes_to_be_marked : gset Cell;
  new_knowledge : list Sentence
}.

(** [loop_again] at the end of a pass: set by each of the three [for]
    loops whose collection is not empty. *)
Definition loop_again (r : pass_report) : bool :=
  negb (bool_decide (mines_to_be_marked r = ∅))
  || negb (bool_decide (safes_to_be_marked r = ∅))
  || negb (bool_decide (new_knowledge r = [])).

(** Lines 241-251: the nested loops fill [new_knowledge], which is then
    appended to [self.knowledge]. *)
Definition subset_inference (ai : MinesweeperAI)
    : MinesweeperAI * list Sentence :=
  let nk := infer_subsets (knowledge ai) in
  (set_knowledge (knowledge ai ++ nk) ai, nk).

Definition propagation_pass (ai : MinesweeperAI)
    : result (MinesweeperAI * pass_report) :=
  let ms := collect_mines ai in
  let ai1 := mark_mines ms ai in
  '(ss, kn) ← collect_safes (safes ai1) (knowledge ai1) ∅ (knowledge ai1);
  let ai2 := mark_safes ss (set_knowledge kn ai1) in
  let '(ai3, nk) := subset_inference ai2 in
  Ret (ai3, mkReport ms ss nk).

(** The [while loop_again] loop, on fuel: one unit per pass. *)
Fixpoint propagate (fuel : nat) (ai : MinesweeperAI) : result MinesweeperAI :=
  match fuel with
  | O => OutOfFuel
  | S fuel' =>
      '(ai', r) ← propagation_pass ai;
      if loop_again r then propagate fuel' ai' else Ret ai'
  end.

(** [MinesweeperAI.add_knowledge]. *)
Definition add_knowledge (fuel : nat) (cell : Cell) (cnt : Z)
    (ai : MinesweeperAI) : result MinesweeperAI :=
  propagate fuel (ingest cell cnt ai).

(** [set.pop()] on a non-empty set: removes an arbitrary element (here
    the first of [elements]) and returns it; the second component is the
    set that is left. *)
Definition set_pop (X : gset Cell) : option (Cell * gset Cell) :=
  c ← head (elements X); Some (c, X ∖ {[ c ]}).

(** [MinesweeperAI.make_safe_move]: [unmade_safes] is a fresh local set,
    the only object [pop] changes; no field of [self] is assigned, so the
    state is returned as it came. *)
Definition make_safe_move (ai : MinesweeperAI) : option Cell * MinesweeperAI :=
  let unmade_safes := safes ai ∖ moves_made ai in
  if decide (len unmade_safes = 0) then (None, ai)
  else (fst <$> set_pop unmade_safes, ai).

(** [MinesweeperAI.make_random_move]: [samples] are the successive pairs
    drawn by [random.randrange(height), random.randrange(width)];
    [randrange] raises [ValueError] on an empty range.  The loop ends at
    the first sample that is neither a move made nor a known mine. *)
Fixpoint make_random_move (samples : list Cell) (ai : MinesweeperAI)
    : result (Cell * MinesweeperAI) :=
  if decide (height ai ≤ 0 ∨ width ai ≤ 0) then Raise ValueError
  else match samples with
       | [] => OutOfFuel
       | random_cell :: samples' =>
           if decide (random_cell ∉ moves_made ai ∪ mines ai)
           then Ret (random_cell, ai)
           else make_random_move samples' ai
       end.

(** ** Sequences of operations *)

(** A sequence of [add_knowledge(cell, count)] calls. *)
Fixpoint run_calls (fuel : nat) (calls : list (Cell * Z)) (ai : MinesweeperAI)
    : result MinesweeperAI :=
  match calls with
  | [] => Ret ai
  | (cell, cnt) :: calls' =>
      ai' ← add_knowledge fuel cell cnt ai; run_calls fuel calls' ai'
  end.

(** The operations of the solver, and the state each leaves behind. *)
Inductive operation : Type :=
| OpMarkSafe (cell : Cell)
| OpMarkMine (cell : Cell)
| OpAddKnowledge (fuel : nat) (cell : Cell) (cnt : Z)
| OpMakeSafeMove
| OpMakeRandomMove (samples : list Cell).

Definition run_operation (op : operation) (ai : MinesweeperAI)
    : result MinesweeperAI :=
  match op with
  | OpMarkSafe cell => Ret (mark_safe cell ai)
  | OpMarkMine cell => Ret (mark_mine cell ai)
  | OpAddKnowledge fuel cell cnt => add_knowledge fuel cell cnt ai
  | OpMakeSafeMove => Ret (make_safe_move ai).2
  | OpMakeRandomMove samples =>
      r ← make_random_move samples ai; Ret r.2
  end.

(** ** Closed forms used in the proofs *)

(** What [for cell in X: s.mark_safe(cell)] and the [mark_mine] analogue
    do to one sentence. *)
Definition strip_safe (X : gset Cell) (s : Sentence) : Sentence :=
  mkSentence (cells s ∖ X) (count s).

Definition strip_mine (X : gset Cell) (s : Sentence) : Sentence :=
  mkSentence (cells s ∖ X) (count s - len (cells s ∩ X)).

(** The cells of the sentences whose count equals their size, and of
    those whose count is 0. *)
Definition full_cells (kn : list Sentence) : gset Cell :=
  ⋃ (cells <$> filter (λ s, len (cells s) = count s) kn).

Definition zero_cells (kn : list Sentence) : gset Cell :=
  ⋃ (cells <$> filter (λ s, count s = 0) kn).

(** The collections and lists of one pass, in closed form. *)
Definition pass_mines (ai : MinesweeperAI) : gset Cell :=
  full_cells (knowledge ai) ∖ mines ai.

Definition pass_kn1 (ai : MinesweeperAI) : list Sentence :=
  strip_mine (pass_mines ai) <$> knowledge ai.

Definition pass_safes (ai : MinesweeperAI) : gset Cell :=
  zero_cells (pass_kn1 ai) ∖ safes ai.

Definition pass_kn2 (ai : MinesweeperAI) : list Sentence :=
  strip_safe (pass_safes ai) <$> filter (λ s, count s ≠ 0) (pass_kn1 ai).

Definition pass_state (ai : MinesweeperAI) : MinesweeperAI :=
  mkAI (height ai) (width ai) (moves_made ai)
       (pass_mines ai ∪ mines ai) (pass_safes ai ∪ safes ai)
       (pass_kn2 ai ++ infer_subsets (pass_kn2 ai)).

Definition pass_rep (ai : MinesweeperAI) : pass_report :=
  mkReport (pass_mines ai) (pass_safes ai) (infer_subsets (pass_kn2 ai)).

(** The state in which the nested loops of subset inference start. *)
Definition pass_marked (ai : MinesweeperAI) : MinesweeperAI :=
  mkAI (height ai) (width ai) (moves_made ai)
       (pass_mines ai ∪ mines ai) (pass_safes ai ∪ safes ai) (pass_kn2 ai).

(** ** Invariants *)

(** Every cell of every sentence is inside the grid and is neither known
    safe, nor a known mine, nor a move made. *)
Definition knowledge_open (ai : MinesweeperAI) : Prop :=
  ∀ s c, s ∈ knowledge ai → c ∈ cells s →
    in_bounds ai c ∧ (c ∉ safes ai) ∧ (c ∉ mines ai) ∧ (c ∉ moves_made ai).



(** ** Well-formed knowledge and the measure of the loop *)

(** Every sentence is true of the mine layout [M]: its count is the
    number of its cells that are mines. *)
Definition consistent (M : gset Cell) (kn : list Sentence) : Prop :=
  ∀ s, s ∈ kn → count s = len (cells s ∩ M).

(** No cell of a sentence is known safe. *)
Definition cells_not_safe (ai : MinesweeperAI) : Prop :=
  ∀ s, s ∈ knowledge ai → cells s ## safes ai.

(** The cells that occur in the sentences. *)
Definition all_cells (kn : list Sentence) : gset Cell := ⋃ (cells <$> kn).

(** The non-empty cell sets of the sentences. *)
Definition shapes (kn : list Sentence) : gset (gset Cell) :=
  list_to_set (cells <$> kn) ∖ {[ ∅ ]}.

(** All subsets of [U]. *)
Definition powerset (U : gset Cell) : gset (gset Cell) :=
  set_fold (λ x P, P ∪ set_map (λ Y : gset Cell, {[ x ]} ∪ Y) P) {[ ∅ ]} U.

(** The two components of the measure: the cells of [U] not yet marked,
    and the subsets of [U] that are not the cell set of a sentence. *)
Definition unmarked (U : gset Cell) (ai : MinesweeperAI) : nat :=
  (size (U ∖ mines ai) + size (U ∖ safes ai))%nat.

Definition unseen (U : gset Cell) (ai : MinesweeperAI) : nat :=
  size (powerset U ∖ shapes (knowledge ai)).

(** ** Concrete instances *)

(** The two sentences of the subset-inference example. *)
Definition sentence_A : Sentence := mkSentence {[ (1, 1); (1, 2) ]} 1.
Definition sentence_B : Sentence := mkSentence {[ (1, 1); (1, 2); (1, 3) ]} 2.

(** The 3x3 game with its one mine at (2,2). *)
Definition scenario_game : Minesweeper :=
  mkMinesweeper 3 3 [[false; false; false];
                     [false; false; false];
                     [false; false; true]].

(** The calls of the 3x3 scenario. *)
Definition scenario_calls : list (Cell * Z) :=
  [((0, 0), 0); ((1, 1), 1); ((1, 2), 1); ((2, 1), 1)].

(** The solver after the first two and after all four calls. *)
Definition scenario_state_2 : MinesweeperAI :=
  mkAI 3 3 {[ (0, 0); (1, 1) ]} ∅ {[ (0, 0); (0, 1); (1, 0); (1, 1) ]}
       [mkSentence {[ (0, 2); (1, 2); (2, 0); (2, 1); (2, 2) ]} 1].

Definition scenario_state_4 : MinesweeperAI :=
  mkAI 3 3 {[ (0, 0); (1, 1); (1, 2); (2, 1) ]} {[ (2, 2) ]}
       {[ (0, 0); (0, 1); (0, 2); (1, 0); (1, 1); (1, 2); (2, 0); (2, 1) ]} [].

(** The solver when the loop of the third call, [add_knowledge((1,2), 1)],
    starts. *)
Definition scenario_loop_entry_3 : MinesweeperAI :=
  mkAI 3 3 {[ (0, 0); (1, 1); (1, 2) ]} ∅
       {[ (0, 0); (0, 1); (1, 0); (1, 1); (1, 2) ]}
       [mkSentence {[ (0, 2); (2, 0); (2, 1); (2, 2) ]} 1;
        mkSentence {[ (0, 2); (2, 1); (2, 2) ]} 1].

(** A state out of the invariant: (0,0) is known safe and is a cell of
    the second sentence. *)
Definition cycling_state : MinesweeperAI :=
  mkAI 1 3 ∅ ∅ {[ (0, 0) ]}
       [mkSentence {[ (0, 1); (0, 2) ]} 1;
        mkSentence {[ (0, 0); (0, 1); (0, 2) ]} 1;
        mkSentence {[ (0, 0) ]} 0].

(** The two cells (0,3) and (1,3) of a 3x4 grid. *)
Definition stuck_cells : gset Cell := {[ (0, 3); (1, 3) ]}.

(** The knowledge list holds the sentence [({}, 2)], some sentence over
    the cells [X], and nothing but [({}, 2)] and sentences over [X] with
    an odd count of at most 1. *)
Definition stuck (X : gset Cell) (ai : MinesweeperAI) : Prop :=
  mkSentence ∅ 2 ∈ knowledge ai
  ∧ (∃ c, mkSentence X c ∈ knowledge ai)
  ∧ ∀ s, s ∈ knowledge ai →
         (cells s = ∅ ∧ count s = 2)
         ∨ (cells s = X ∧ Z.odd (count s) = true ∧ count s ≤ 1).

(** The calls a player makes who reveals the cells [cs] of the game [g]
    and passes on the count the game shows for each,
    [ai.add_knowledge(cell, game.nearby_mines(cell))]. *)
Definition truthful_calls (g : Minesweeper) (cs : list Cell)
    : list (Cell * Z) :=
  (λ c, (c, nearby_mines g c)) <$> cs.

(** A 3x8 game with mines at (0,1), (1,0), (1,1) and (1,6); four cells
    revealed in it, none of them a mine; the solver after the four calls;
    and the unexplored neighbours of (0,5) in that state. *)
Definition overcount_game : Minesweeper :=
  mkMinesweeper 3 8
    [[false; true; false; false; false; false; false; false];
     [true; true; false; false; false; false; true; false];
     [false; false; false; false; false; false; false; false]].

Definition overcount_reveals : list Cell := [(0, 0); (1, 2); (1, 3); (2, 1)].

Definition overcount_state : MinesweeperAI :=
  mkAI 3 8 {[ (0, 0); (1, 2); (1, 3); (2, 1) ]}
       {[ (0, 1); (1, 0); (1, 1); (2, 0) ]}
       {[ (0, 0); (0, 2); (0, 3); (0, 4); (1, 2); (1, 3); (1, 4);
          (2, 1); (2, 2); (2, 3); (2, 4) ]}
       [mkSentence ∅ 2].

Definition overcount_cells : gset Cell := {[ (0, 6); (1, 5); (1, 6) ]}.

(** A 3x3 game with mines at (0,1), (1,0) and (1,1), and its layout as a
    set of cells. *)
Definition crowded_game : Minesweeper :=
  mkMinesweeper 3 3 [[false; true; false];
                     [true; true; false];
                     [false; false; false]].

Definition crowded_layout : gset Cell := {[ (0, 1); (1, 0); (1, 1) ]}.

(** ** The mine layout of a game and sound solver states *)

(** The board of [g] has a mine exactly at the cells of [M] (inside the
    grid), as [self.board] and [self.mines] of a game do. *)
Definition layout_of (g : Minesweeper) (M : gset Cell) : Prop :=
  ∀ i j, 0 ≤ i < game_height g → 0 ≤ j < game_width g →
         (board_at g i j = true ↔ (i, j) ∈ M).

(** The cells of the grid next to [cell]: what [find_unexplored_neighbors]
    returns while nothing is known. *)
Definition grid_neighbors (h w : Z) (cell : Cell) : gset Cell :=
  find_unexplored_neighbors (init h w) cell.

(** Everything the solver holds is true of the layout [M]. *)
Definition sound (M : gset Cell) (ai : MinesweeperAI) : Prop :=
  consistent M (knowledge ai)
  ∧ mines ai ⊆ M
  ∧ safes ai ## M
  ∧ moves_made ai ## M.

(** ** The construction of a game *)

(** The whole [Minesweeper] object: the fields above with [self.mines]
    and [self.mines_found]. *)
Record MinesweeperGame : Type := mkGame {
  game : Minesweeper;
  game_mines : gset Cell;
  mines_found : gset Cell
}.

(** Lines 19-24: [height] rows, each a list of its own with [width]
    times [False]; [range] of a negative number is empty. *)
Definition empty_board (h w : Z) : list (list bool) :=
  replicate (Z.to_nat h) (replicate (Z.to_nat w) false).

(** [self.board[i][j] = True], for [i] and [j] that [randrange] drew. *)
Definition set_mine (g : Minesweeper) (i j : Z) : Minesweeper :=
  mkMinesweeper (game_height g) (game_width g)
                (alter (λ row, <[Z.to_nat j := true]> row) (Z.to_nat i) (board g)).

(** Lines 27-32: the loop that places the mines.  [samples] are the
    successive pairs [(randrange(height), randrange(width))]; [randrange]
    raises [ValueError] on an empty range. *)
Fixpoint place_mines (samples : list Cell) (target : Z)
    (g : Minesweeper) (ms : gset Cell) : result (Minesweeper * gset Cell) :=
  if decide (len ms = target) then Ret (g, ms)
  else if decide (game_height g ≤ 0 ∨ game_width g ≤ 0) then Raise ValueError
  else match samples with
       | [] => OutOfFuel
       | (i, j) :: samples' =>
           if board_at g i j then place_mines samples' target g ms
           else place_mines samples' target (set_mine g i j) ({[ (i, j) ]} ∪ ms)
       end.

(** [Minesweeper(height, width, mines)]. *)
Definition new_game (samples : list Cell) (h w target : Z)
    : result MinesweeperGame :=
  '(g, ms) ← place_mines samples target (mkMinesweeper h w (empty_board h w)) ∅;
  Ret (mkGame g ms ∅).

(** What [randrange(h)] and [randrange(w)] can draw. *)
Definition in_range (h w : Z) (c : Cell) : Prop :=
  (0 ≤ c.1 < h) ∧ (0 ≤ c.2 < w).

(** The board has [height] rows of [width] cells. *)
Definition well_shaped (g : Minesweeper) : Prop :=
  length (board g) = Z.to_nat (game_height g)
  ∧ Forall (λ row, length row = Z.to_nat (game_width g)) (board g).

(** The invariant of the placing loop: the board is well shaped, has its
    mines exactly at the cells of [ms], and these are cells of the grid. *)
Definition placed (g : Minesweeper) (ms : gset Cell) : Prop :=
  well_shaped g
  ∧ layout_of g ms
  ∧ ∀ c, c ∈ ms → in_range (game_height g) (game_width g) c.

(** The cells of the grid, row by row. *)
Definition grid_cells (h w : Z) : list Cell :=
  seqZ 0 h ≫= λ i, pair i <$> seqZ 0 w.

(** [Minesweeper.won]. *)
Definition won (gs : MinesweeperGame) : bool :=
  bool_decide (mines_found gs = game_mines gs).

(** [l[i]] of a Python list: a negative index counts from the end;
    [None] stands for [IndexError]. *)
Definition list_getitem {A : Type} (l : list A) (i : Z) : option A :=
  if decide (0 ≤ i) then l !! Z.to_nat i
  else if decide (- Z.of_nat (length l) ≤ i)
       then l !! Z.to_nat (Z.of_nat (length l) + i)
       else None.

(** [Minesweeper.is_mine]: [self.board[i][j]], with no bounds test. *)
Definition is_mine (g : Minesweeper) (cell : Cell) : option bool :=
  row ← list_getitem (board g) cell.1; list_getitem row cell.2.

(** ** The text dump of a game *)

(** [s * n] of Python strings; a number below 1 gives the empty string. *)
Fixpoint string_repeat (s : string) (n : nat) : string :=
  match n with
  | O => EmptyString
  | S n' => s +:+ string_repeat s n'
  end.

(** [print("--" * self.width + "-")]. *)
Definition border (g : Minesweeper) : string :=
  string_repeat "--" (Z.to_nat (game_width g)) +:+ "-".

(** Lines 44-49: the cells of row [i], each printed with [end=""], then
    the closing bar. *)
Definition row_line (g : Minesweeper) (i : Z) : string :=
  foldr (λ j line, (if board_at g i j then "|X" else "| ") +:+ line) "|"
        (seqZ 0 (game_width g)).

(** [Minesweeper.print]: the lines written to the standard output. *)
Definition print_lines (g : Minesweeper) : list string :=
  (seqZ 0 (game_height g) ≫= λ i, [border g; row_line g i]) ++ [border g].

(** The letter printed for a mine. *)
Definition mine_char : Ascii.ascii :=
  match "X" with
  | String a _ => a
  | EmptyString => Ascii.zero
  end.

(** How often a character occurs in a string. *)
Fixpoint count_char (a : Ascii.ascii) (s : string) : nat :=
  match s with
  | EmptyString => O
  | String b s' => ((if decide (a = b) then 1 else 0) + count_char a s')%nat
  end.

(** * Properties *)

(** ** Sentence algebra *)

(** C5: [known_mines] returns the sentence's own cell set exactly when the
    count equals the number of cells and returns [None] (never an empty
    set standing for "nothing known") otherwise; [known_safes] returns the
    cell set exactly when the count is 0 and [None] otherwise. *)
Theorem known_mines_known_safes_spec (s : Sentence) :
  (Sentence.known_mines s = Some (cells s) ↔ count s = len (cells s))
  ∧ (Sentence.known_mines s = None ↔ count s ≠ len (cells s))
  ∧ (Sentence.known_safes s = Some (cells s) ↔ count s = 0)
  ∧ (Sentence.known_safes s = None ↔ count s ≠ 0).
Proof.
  unfold Sentence.known_mines, Sentence.known_safes.
  repeat split; repeat case_decide; intros; congruence.
Qed.

(** C6: marking a cell that is not in the sentence changes neither field;
    marking a cell of the sentence as a mine removes it and lowers the
    count by exactly 1; marking it safe removes it and keeps the count. *)
Theorem sentence_mark_spec (s : Sentence) (c : Cell) :
  (c ∉ cells s →
     Sentence.mark_mine c s = s ∧ Sentence.mark_safe c s = s)
  ∧ (c ∈ cells s →
     cells (Sentence.mark_mine c s) = cells s ∖ {[ c ]}
     ∧ count (Sentence.mark_mine c s) = count s - 1
     ∧ cells (Sentence.mark_safe c s) = cells s ∖ {[ c ]}
     ∧ count (Sentence.mark_safe c s) = count s).
Proof.
  unfold Sentence.mark_mine, Sentence.mark_safe.
  split; intros Hc; repeat case_decide; done.
Qed.

Lemma sentence_mark_spec_witness :
  let s := mkSentence {[ (1, 1); (1, 2) ]} 1 in
  Sentence.mark_mine (0, 0) s = s
  ∧ Sentence.mark_safe (0, 0) s = s
  ∧ cells (Sentence.mark_mine (1, 1) s) = cells s ∖ {[ (1, 1) ]}
  ∧ count (Sentence.mark_mine (1, 1) s) = 0
  ∧ count (Sentence.mark_safe (1, 1) s) = 1.
Proof.
  intros s.
  destruct (sentence_mark_spec s (0, 0)) as [[H1 H2] _]; [compute_done|].
  destruct (sentence_mark_spec s (1, 1)) as [_ (H3 & H4 & _ & H6)];
    [compute_done|].
  split_and!; [exact H1 | exact H2 | exact H3 | exact H4 | exact H6].
Defined.

(** ** The size of a set of cells *)

Lemma len_empty : len ∅ = 0.
Proof. unfold len. by rewrite size_empty. Qed.

Lemma len_nonneg (X : gset Cell) : 0 ≤ len X.
Proof. unfold len. lia. Qed.

Lemma len_singleton (c : Cell) : len {[ c ]} = 1.
Proof. unfold len. by rewrite size_singleton. Qed.

Lemma len_union (X Y : gset Cell) : X ## Y → len (X ∪ Y) = len X + len Y.
Proof. intros H. unfold len. rewrite size_union by done. lia. Qed.

Lemma len_zero_iff (X : gset Cell) : len X = 0 ↔ X = ∅.
Proof.
  unfold len. split.
  - intros H. apply leibniz_equiv, size_empty_iff. lia.
  - intros ->. by rewrite size_empty.
Qed.

Lemma len_subseteq (X Y : gset Cell) : X ⊆ Y → len X ≤ len Y.
Proof. intros H. unfold len. apply subseteq_size in H. lia. Qed.

Lemma len_subseteq_eq (X Y : gset Cell) : X ⊆ Y → len Y ≤ len X → X = Y.
Proof.
  intros H1 H2. apply set_subseteq_size_eq; [done | unfold len in H2; lia].
Qed.

(** A set splits along any other set. *)
Lemma len_split (X Y : gset Cell) : len X = len (X ∩ Y) + len (X ∖ Y).
Proof.
  rewrite <- len_union by set_solver. f_equal.
  apply set_eq. intros c. destruct (decide (c ∈ Y)); set_solver.
Qed.

(** ** Marking a whole set of cells *)

Lemma Sentence_eq (s t : Sentence) :
  cells s = cells t → count s = count t → s = t.
Proof. destruct s, t; simpl; congruence. Qed.

Lemma strip_safe_empty s : strip_safe ∅ s = s.
Proof. apply Sentence_eq; simpl; [set_solver | done]. Qed.

Lemma strip_mine_empty s : strip_mine ∅ s = s.
Proof.
  apply Sentence_eq; simpl; [set_solver |].
  replace (cells s ∩ ∅) with (∅ : gset Cell) by set_solver.
  rewrite len_empty. lia.
Qed.

Lemma mark_safe_strip_safe x X s :
  x ∉ X → Sentence.mark_safe x (strip_safe X s) = strip_safe ({[ x ]} ∪ X) s.
Proof.
  intros Hx. unfold Sentence.mark_safe.
  case_decide as Hin; apply Sentence_eq; simpl in *; try done; set_solver.
Qed.

Lemma mark_mine_strip_mine x X s :
  x ∉ X → Sentence.mark_mine x (strip_mine X s) = strip_mine ({[ x ]} ∪ X) s.
Proof.
  intros Hx. unfold Sentence.mark_mine.
  case_decide as Hin; apply Sentence_eq; simpl in *; try set_solver.
  - replace (cells s ∩ ({[x]} ∪ X)) with ({[x]} ∪ cells s ∩ X) by set_solver.
    rewrite len_union by set_solver. rewrite len_singleton. lia.
  - do 2 f_equal. set_solver.
Qed.

Lemma mark_safes_eq X ai :
  mark_safes X ai =
  mkAI (height ai) (width ai) (moves_made ai) (mines ai) (X ∪ safes ai)
       (strip_safe X <$> knowledge ai).
Proof.
  unfold mark_safes.
  apply (set_fold_ind_L (λ r Y, r =
    mkAI (height ai) (width ai) (moves_made ai) (mines ai) (Y ∪ safes ai)
         (strip_safe Y <$> knowledge ai))).
  - destruct ai; simpl. f_equal; [set_solver |].
    rewrite <- (list_fmap_id knowledge0) at 1.
    apply list_fmap_ext. intros. symmetry. apply strip_safe_empty.
  - intros x Y r Hx ->. unfold mark_safe; simpl. f_equal; [set_solver |].
    rewrite <- list_fmap_compose. apply list_fmap_ext. intros _ s _. simpl.
    by apply mark_safe_strip_safe.
Qed.

Lemma mark_mines_eq X ai :
  mark_mines X ai =
  mkAI (height ai) (width ai) (moves_made ai) (X ∪ mines ai) (safes ai)
       (strip_mine X <$> knowledge ai).
Proof.
  unfold mark_mines.
  apply (set_fold_ind_L (λ r Y, r =
    mkAI (height ai) (width ai) (moves_made ai) (Y ∪ mines ai) (safes ai)
         (strip_mine Y <$> knowledge ai))).
  - destruct ai; simpl. f_equal; [set_solver |].
    rewrite <- (list_fmap_id knowledge0) at 1.
    apply list_fmap_ext. intros. symmetry. apply strip_mine_empty.
  - intros x Y r Hx ->. unfold mark_mine; simpl. f_equal; [set_solver |].
    rewrite <- list_fmap_compose. apply list_fmap_ext. intros _ s _. simpl.
    by apply mark_mine_strip_mine.
Qed.

(** ** The collecting loops of a pass *)

(** The inner [for cell in sentence.cells] loop of both collecting steps:
    it adds the cells that are not in [known] (nor collected already). *)
Lemma collect_cells_eq (known acc0 X : gset Cell) :
  set_fold (λ cell acc, if decide (cell ∉ known ∪ acc)
                        then {[ cell ]} ∪ acc else acc) acc0 X
  = acc0 ∪ (X ∖ known).
Proof.
  apply (set_fold_ind_L (λ r Y, r = acc0 ∪ (Y ∖ known))).
  - set_solver.
  - intros x Y r Hx ->. case_decide as Hd.
    + set_solver.
    + set_solver.
Qed.

(** Membership in the union of the cell sets of a filtered list. *)
Local Ltac filtered_union_membership :=
  rewrite elem_of_union_list; split;
  [ intros (X & (s & -> & [??]%list_elem_of_filter)%list_elem_of_fmap & Hc);
    eauto
  | intros (s & Hs & Ht & Hc); exists (cells s); split; [|done];
    apply list_elem_of_fmap; exists s; split; [done|];
    by apply list_elem_of_filter ].

Lemma elem_of_full_cells kn c :
  c ∈ full_cells kn ↔ ∃ s, s ∈ kn ∧ len (cells s) = count s ∧ c ∈ cells s.
Proof. unfold full_cells. filtered_union_membership. Qed.

Lemma elem_of_zero_cells kn c :
  c ∈ zero_cells kn ↔ ∃ s, s ∈ kn ∧ count s = 0 ∧ c ∈ cells s.
Proof. unfold zero_cells. filtered_union_membership. Qed.

Lemma collect_mines_eq ai :
  collect_mines ai = full_cells (knowledge ai) ∖ mines ai.
Proof.
  unfold collect_mines.
  assert (∀ kn acc,
    foldl (λ to_be_marked s,
             if decide (len (cells s) = count s)
             then set_fold (λ cell acc,
                              if decide (cell ∉ mines ai ∪ acc)
                              then {[ cell ]} ∪ acc else acc)
                           to_be_marked (cells s)
             else to_be_marked) acc kn
    = acc ∪ (full_cells kn ∖ mines ai)) as Hgen.
  { induction kn as [|s kn IH]; intros acc; simpl.
    - unfold full_cells. simpl. set_solver.
    - rewrite IH. unfold full_cells. rewrite filter_cons.
      case_decide; [rewrite collect_cells_eq|]; simpl; set_solver. }
  rewrite Hgen. set_solver.
Qed.

(** [list.remove] finds the first equal element. *)
Lemma list_remove_middle (s : Sentence) (pre post : list Sentence) :
  (∀ y, y ∈ pre → y ≠ s) →
  list_remove s (pre ++ s :: post) = Ret (pre ++ post).
Proof.
  induction pre as [|y pre IH]; intros Hpre; simpl.
  - by rewrite decide_True.
  - rewrite decide_False by (apply Hpre; left).
    rewrite IH; [done|]. intros z Hz. apply Hpre. by right.
Qed.

(** The safe-collecting loop never fails in [list.remove]: it is run on a
    copy of the list it removes from, and leaves the sentences whose
    count is not 0. *)
Lemma collect_safes_gen safes0 temp :
  ∀ (kept : list Sentence) (acc : gset Cell),
    (∀ y, y ∈ kept → count y ≠ 0) →
    collect_safes safes0 temp acc (kept ++ temp)
    = Ret (acc ∪ (zero_cells temp ∖ safes0),
           kept ++ filter (λ s, count s ≠ 0) temp).
Proof.
  induction temp as [|s temp IH]; intros kept acc Hkept; simpl.
  - unfold zero_cells. simpl. do 2 f_equal. set_solver.
  - rewrite filter_cons. unfold zero_cells. rewrite filter_cons.
    case_decide as Hz.
    + rewrite decide_False by (intros ?; done).
      rewrite list_remove_middle by (intros y Hy ->; by apply (Hkept s)).
      simpl. rewrite IH by done. rewrite collect_cells_eq.
      unfold zero_cells. do 2 f_equal. simpl. set_solver.
    + rewrite decide_True by done.
      rewrite (cons_middle s kept temp), app_assoc.
      rewrite IH.
      * unfold zero_cells. by rewrite <- app_assoc.
      * intros y [Hy| ->%list_elem_of_singleton]%elem_of_app; auto.
Qed.

Lemma collect_safes_eq safes0 kn :
  collect_safes safes0 kn ∅ kn
  = Ret (zero_cells kn ∖ safes0, filter (λ s, count s ≠ 0) kn).
Proof.
  pose proof (collect_safes_gen safes0 kn [] ∅) as H. simpl in H.
  rewrite H by (intros y Hy; by apply elem_of_nil in Hy).
  do 2 f_equal. set_solver.
Qed.

(** ** A pass in closed form *)

(** A pass never raises: on every state it yields a state and a report. *)
Lemma propagation_pass_eq ai :
  propagation_pass ai = Ret (pass_state ai, pass_rep ai).
Proof.
  unfold propagation_pass. rewrite collect_mines_eq. fold (pass_mines ai).
  rewrite mark_mines_eq. cbn [knowledge safes]. fold (pass_kn1 ai).
  rewrite collect_safes_eq. fold (pass_safes ai). cbn.
  rewrite mark_safes_eq. cbn. by fold (pass_kn2 ai).
Qed.

Lemma pass_state_subset_inference ai :
  subset_inference (pass_marked ai)
  = (pass_state ai, new_knowledge (pass_rep ai)).
Proof. done. Qed.

(** ** Subset inference *)

Lemma infer_pair_cases kn queue a b :
  infer_pair kn queue (a, b) = queue
  ∨ (infer_pair kn queue (a, b) = queue ++ [difference a b]
     ∧ cells a ≠ cells b ∧ cells a ⊆ cells b
     ∧ (difference a b ∉ kn) ∧ (difference a b ∉ queue)).
Proof.
  unfold infer_pair. repeat case_decide; auto. right. naive_solver.
Qed.

Lemma elem_of_pairs kn a b : (a, b) ∈ pairs kn ↔ a ∈ kn ∧ b ∈ kn.
Proof.
  unfold pairs. rewrite list_elem_of_bind. split.
  - intros (a' & Hab & Ha). apply list_elem_of_fmap in Hab as (b' & Heq & Hb).
    by simplify_eq.
  - intros [Ha Hb]. exists a. split; [|done]. by apply list_elem_of_fmap_2.
Qed.

(** The queue only grows along the nested loops. *)
Lemma infer_fold_prefix kn l : ∀ queue,
  queue `prefix_of` foldl (infer_pair kn) queue l.
Proof.
  induction l as [|[a b] l IH]; intros queue; cbn [foldl]; [done|].
  etrans; [|apply IH].
  destruct (infer_pair_cases kn queue a b) as [-> | [-> _]];
    [done | by apply prefix_app_r].
Qed.

(** Every queued sentence is the difference of a pair met by the loops,
    is not in the knowledge list and is queued once. *)
Lemma infer_fold_sound kn l : ∀ queue s,
  s ∈ foldl (infer_pair kn) queue l →
  s ∈ queue
  ∨ ∃ a b, (a, b) ∈ l ∧ cells a ≠ cells b ∧ cells a ⊆ cells b
           ∧ s = difference a b ∧ s ∉ kn.
Proof.
  induction l as [|[a b] l IH]; intros queue s; cbn [foldl]; [auto|].
  intros Hs. apply IH in Hs as [Hs | (a' & b' & Hin & ?)].
  - destruct (infer_pair_cases kn queue a b) as [Heq | (Heq & ? & ? & ? & ?)];
      rewrite Heq in Hs; [auto|].
    apply elem_of_app in Hs as [Hs | ->%list_elem_of_singleton]; [auto|].
    right. exists a, b. split; [left | done].
  - right. exists a', b'. split; [by right | done].
Qed.

Lemma infer_fold_NoDup kn l : ∀ queue,
  NoDup queue → NoDup (foldl (infer_pair kn) queue l).
Proof.
  induction l as [|[a b] l IH]; intros queue Hq; cbn [foldl]; [done|].
  apply IH.
  destruct (infer_pair_cases kn queue a b) as [-> | (-> & ? & ? & ? & ?)];
    [done|].
  apply NoDup_app. split_and!; [done | | apply NoDup_singleton].
  intros x Hx ->%list_elem_of_singleton. done.
Qed.

(** Every pair that passes the subset test has its difference in the
    knowledge list or in the queue afterwards. *)
Lemma infer_fold_complete kn l : ∀ queue a b,
  (a, b) ∈ l → cells a ≠ cells b → cells a ⊆ cells b →
  difference a b ∈ kn ∨ difference a b ∈ foldl (infer_pair kn) queue l.
Proof.
  induction l as [|[a' b'] l IH]; intros queue a b Hin Hne Hsub; cbn [foldl].
  - by apply elem_of_nil in Hin.
  - apply elem_of_cons in Hin as [Heq | Hin]; [|by apply IH].
    injection Heq as <- <-.
    destruct (decide (difference a b ∈ kn)) as [|Hkn]; [auto|]. right.
    eapply elem_of_prefix; [|apply infer_fold_prefix].
    unfold infer_pair. rewrite decide_True by done.
    case_decide as Hd.
    + apply elem_of_app. right. by left.
    + apply not_and_l in Hd as [Hd|Hd]; [by apply dec_stable in Hd|].
      by apply dec_stable in Hd.
Qed.

Lemma infer_subsets_sound kn s :
  s ∈ infer_subsets kn →
  ∃ a b, a ∈ kn ∧ b ∈ kn ∧ cells a ≠ cells b ∧ cells a ⊆ cells b
         ∧ s = difference a b ∧ s ∉ kn.
Proof.
  intros Hs. apply infer_fold_sound in Hs as [Hs | (a & b & Hin & ?)].
  - by apply elem_of_nil in Hs.
  - apply elem_of_pairs in Hin as [??]. exists a, b. naive_solver.
Qed.

Lemma infer_subsets_complete kn a b :
  a ∈ kn → b ∈ kn → cells a ≠ cells b → cells a ⊆ cells b →
  difference a b ∈ kn ∨ difference a b ∈ infer_subsets kn.
Proof.
  intros. apply infer_fold_complete; [by apply elem_of_pairs | done..].
Qed.

(** C3: in the nested loops of subset inference, at an ordered pair
    [(a, b)] of sentences of the knowledge list with different cell sets
    and [a.cells] a subset of [b.cells], the candidate
    [(b.cells - a.cells, b.count - a.count)] is queued exactly when no
    equal sentence is in the knowledge list and none is queued already;
    otherwise the queue is left as it is.  What is queued is appended to
    the knowledge list at the end of the pass, so the candidate is in the
    list afterwards in either case. *)
Theorem subset_inference_adds_new_candidates
    (ai : MinesweeperAI) (before after : list (Sentence * Sentence))
    (a b : Sentence) :
  pairs (knowledge ai) = before ++ (a, b) :: after →
  cells a ≠ cells b →
  cells a ⊆ cells b →
  let kn := knowledge ai in
  let candidate := difference a b in
  let queued := foldl (infer_pair kn) [] before in
  let queued' := foldl (infer_pair kn) [] (before ++ [(a, b)]) in
  (queued' = queued ++ [candidate] ↔ (candidate ∉ kn) ∧ (candidate ∉ queued))
  ∧ (queued' = queued ↔ ¬ ((candidate ∉ kn) ∧ (candidate ∉ queued)))
  ∧ queued' `prefix_of` (subset_inference ai).2
  ∧ knowledge (subset_inference ai).1 = kn ++ (subset_inference ai).2
  ∧ candidate ∈ knowledge (subset_inference ai).1.
Proof.
  intros Hpairs Hne Hsub kn candidate queued queued'.
  assert (queued' = infer_pair kn queued (a, b)) as Hq'.
  { unfold queued'. by rewrite foldl_app. }
  assert (∀ l : list Sentence, l ≠ l ++ [candidate]) as Hgrow.
  { intros l Hl. apply (f_equal length) in Hl.
    rewrite length_app in Hl. simpl in Hl. lia. }
  split_and!.
  - rewrite Hq'. unfold infer_pair. rewrite decide_True by done.
    fold candidate. case_decide as Hd; [done|]. split; [|done].
    intros Heq. by apply Hgrow in Heq.
  - rewrite Hq'. unfold infer_pair. rewrite decide_True by done.
    fold candidate. case_decide as Hd; [|done]. split; [|done].
    intros Heq. symmetry in Heq. by apply Hgrow in Heq.
  - subst queued' kn. unfold subset_inference, infer_subsets. cbn [snd].
    replace (pairs (knowledge ai)) with ((before ++ [(a, b)]) ++ after)
      by (by rewrite Hpairs, <- app_assoc).
    rewrite (foldl_app _ (before ++ [(a, b)]) after).
    apply infer_fold_prefix.
  - done.
  - unfold subset_inference. cbn [fst knowledge set_knowledge]. fold kn.
    apply elem_of_app.
    apply infer_subsets_complete; [| |done..];
      apply (elem_of_pairs kn a b); unfold kn; rewrite Hpairs;
      apply elem_of_app; right; left.
Qed.

Lemma subset_inference_adds_new_candidates_witness :
  let ai := mkAI 3 4 ∅ ∅ ∅ [sentence_A; sentence_B] in
  foldl (infer_pair (knowledge ai)) []
        [(sentence_A, sentence_A); (sentence_A, sentence_B)]
  = [mkSentence {[ (1, 3) ]} 1]
  ∧ mkSentence {[ (1, 3) ]} 1 ∈ knowledge (subset_inference ai).1.
Proof.
  intros ai.
  pose proof (subset_inference_adds_new_candidates ai
                [(sentence_A, sentence_A)]
                [(sentence_B, sentence_A); (sentence_B, sentence_B)]
                sentence_A sentence_B) as H.
  assert (difference sentence_A sentence_B = mkSentence {[ (1, 3) ]} 1) as Hd
    by (by vm_compute).
  rewrite Hd in H. cbv zeta in H.
  destruct H as (Hadd & _ & _ & _ & Hin).
  - reflexivity.
  - compute_done.
  - compute_done.
  - split; [|exact Hin]. apply Hadd. split; compute_done.
Defined.

(** ** Move selection *)

(** C8: [make_safe_move] returns a cell of [safes - moves_made] when that
    set is not empty and [None] when it is empty, and in both cases the
    solver state (moves made, safes, mines, knowledge) is the one it was
    called in. *)
Theorem make_safe_move_spec (ai : MinesweeperAI) :
  (safes ai ∖ moves_made ai ≠ ∅ →
     ∃ c, (make_safe_move ai).1 = Some c ∧ c ∈ safes ai ∖ moves_made ai)
  ∧ (safes ai ∖ moves_made ai = ∅ → (make_safe_move ai).1 = None)
  ∧ moves_made (make_safe_move ai).2 = moves_made ai
  ∧ safes (make_safe_move ai).2 = safes ai
  ∧ mines (make_safe_move ai).2 = mines ai
  ∧ knowledge (make_safe_move ai).2 = knowledge ai.
Proof.
  unfold make_safe_move. split_and!.
  - intros Hne. rewrite decide_False by (by rewrite len_zero_iff). cbn [fst].
    unfold set_pop.
    destruct (elements (safes ai ∖ moves_made ai)) as [|c l] eqn:He.
    + apply elements_empty_inv, leibniz_equiv in He. done.
    + exists c. split; [done|]. apply elem_of_elements. rewrite He. by left.
  - intros He. by rewrite decide_True by (by rewrite len_zero_iff).
  - by case_decide.
  - by case_decide.
  - by case_decide.
  - by case_decide.
Qed.

Lemma make_safe_move_spec_witness :
  let ai := mkAI 3 3 {[ (0, 0) ]} ∅ {[ (0, 0); (0, 1) ]} [] in
  (make_safe_move ai).1 = Some (0, 1)
  ∧ (make_safe_move (init 3 3)).1 = None.
Proof.
  intros ai. split.
  - destruct (make_safe_move_spec ai) as ((c & Hc & Hin) & _).
    + compute_done.
    + rewrite Hc. f_equal. revert Hin. unfold ai; cbn [safes moves_made].
      intros Hin. apply elem_of_difference in Hin as [Hin Hnot].
      apply elem_of_union in Hin as [Hin|Hin];
        apply elem_of_singleton in Hin; [|done].
      subst c. exfalso. apply Hnot. by apply elem_of_singleton.
  - apply (make_safe_move_spec (init 3 3)). reflexivity.
Defined.

(** ** The 3x3 scenario *)

(** C7, as stated, fails: after [add_knowledge((0,0), 0)] on a fresh 3x3
    solver, the unexplored neighbours of (1,1) are not the three cells
    (1,2), (2,1), (2,2), and the sentence over those three cells is not
    in the knowledge list after [add_knowledge((1,1), 1)]. *)
Lemma second_reveal_not_three_cells :
  ∃ ai1 ai2,
    add_knowledge 1 (0, 0) 0 (init 3 3) = Ret ai1
    ∧ add_knowledge 1 (1, 1) 1 ai1 = Ret ai2
    ∧ find_unexplored_neighbors (revealed (1, 1) ai1) (1, 1)
      ≠ {[ (1, 2); (2, 1); (2, 2) ]}
    ∧ (mkSentence {[ (1, 2); (2, 1); (2, 2) ]} 1
       ∉ knowledge (ingest (1, 1) 1 ai1))
    ∧ (mkSentence {[ (1, 2); (2, 1); (2, 2) ]} 1 ∉ knowledge ai2).
Proof.
  eexists _, _. split_and!; [by vm_compute | by vm_compute | compute_done..].
Qed.

(** C7, amended: after [add_knowledge((0,0), 0)] on a fresh 3x3 solver,
    [add_knowledge((1,1), 1)] finds the five unexplored neighbours (0,2),
    (1,2), (2,0), (2,1), (2,2) of (1,1) (the first call made (0,1) and
    (1,0) safe, not (0,2) and (2,0)); 5 exceeds the count 1, and the
    sentence over these five cells with count 1 is appended to the (so
    far empty) knowledge list, where the loop leaves it. *)
Theorem second_reveal_five_cells (fuel : nat) :
  ∃ ai1 ai2,
    add_knowledge (S fuel) (0, 0) 0 (init 3 3) = Ret ai1
    ∧ add_knowledge (S fuel) (1, 1) 1 ai1 = Ret ai2
    ∧ find_unexplored_neighbors (revealed (1, 1) ai1) (1, 1)
      = {[ (0, 2); (1, 2); (2, 0); (2, 1); (2, 2) ]}
    ∧ 1 < len (find_unexplored_neighbors (revealed (1, 1) ai1) (1, 1))
    ∧ knowledge (ingest (1, 1) 1 ai1)
      = knowledge ai1
        ++ [mkSentence {[ (0, 2); (1, 2); (2, 0); (2, 1); (2, 2) ]} 1]
    ∧ knowledge ai2
      = [mkSentence {[ (0, 2); (1, 2); (2, 0); (2, 1); (2, 2) ]} 1].
Proof.
  eexists _, _. split_and!; [by vm_compute | by vm_compute | by vm_compute..].
Qed.

(** C1: on a fresh 3x3 solver the calls [add_knowledge((0,0), 0)],
    [((1,1), 1)], [((1,2), 1)], [((2,1), 1)] (the counts are those of the
    game with its one mine at (2,2)) all return, and afterwards (2,2) is
    in [mines] and each of the other eight cells of the grid is in
    [safes]. *)
Theorem scenario_converges (fuel : nat) :
  ∃ ai,
    Forall (λ call, nearby_mines scenario_game call.1 = call.2) scenario_calls
    ∧ run_calls (S (S (S fuel))) scenario_calls (init 3 3) = Ret ai
    ∧ (2, 2) ∈ mines ai
    ∧ (∀ c, in_bounds ai c → c ≠ (2, 2) → c ∈ safes ai)
    ∧ mines ai = {[ (2, 2) ]}
    ∧ safes ai = {[ (0, 0); (0, 1); (0, 2); (1, 0); (1, 1); (1, 2);
                    (2, 0); (2, 1) ]}.
Proof.
  exists scenario_state_4. split; [repeat constructor|].
  split; [by vm_compute|].
  split_and!; [compute_done | | done..].
  intros [i j] [Hi Hj] Hne. cbn in Hi, Hj.
  cbn [safes scenario_state_4]. set_unfold.
  assert (i = 0 ∨ i = 1 ∨ i = 2) as Hi' by lia.
  assert (j = 0 ∨ j = 1 ∨ j = 2) as Hj' by lia.
  destruct Hi' as [-> | [-> | ->]], Hj' as [-> | [-> | ->]];
    first [ by destruct Hne | auto 12 ].
Qed.

(** ** The invariant of the knowledge list *)

Lemma elem_of_find_unexplored_neighbors ai cell c :
  c ∈ find_unexplored_neighbors ai cell →
  in_bounds ai c ∧ (c ∉ moves_made ai) ∧ (c ∉ safes ai) ∧ (c ∉ mines ai).
Proof.
  unfold find_unexplored_neighbors.
  assert (∀ (l : list (Z * Z)) (acc : gset Cell),
    c ∈ foldl (λ neighbors d,
                 let neighbor_cell := (cell.1 + d.1, cell.2 + d.2) in
                 if decide (in_bounds ai neighbor_cell
                            ∧ neighbor_cell ∉ moves_made ai ∪ safes ai ∪ mines ai)
                 then neighbors ∪ {[ neighbor_cell ]}
                 else neighbors) acc l →
    c ∈ acc
    ∨ (in_bounds ai c ∧ (c ∉ moves_made ai) ∧ (c ∉ safes ai) ∧ (c ∉ mines ai)))
    as Hgen.
  { induction l as [|d l IH]; intros acc; cbn [foldl]; [auto|].
    intros Hc. apply IH in Hc as [Hc|Hc]; [|auto].
    cbv zeta in Hc. case_decide as Hd; [|auto].
    apply elem_of_union in Hc as [Hc | ->%elem_of_singleton]; [auto|].
    right. destruct Hd as [Hb Hn]. set_solver. }
  intros Hc. apply Hgen in Hc as [Hc|Hc]; [set_solver | done].
Qed.

Lemma elem_of_knowledge_mark_safe c ai s :
  s ∈ knowledge (mark_safe c ai) →
  ∃ s0, s0 ∈ knowledge ai ∧ cells s ⊆ cells s0 ∖ {[ c ]}.
Proof.
  cbn. intros (s0 & -> & Hs0)%list_elem_of_fmap. exists s0. split; [done|].
  unfold Sentence.mark_safe. case_decide; simpl; set_solver.
Qed.

Lemma elem_of_knowledge_mark_mine c ai s :
  s ∈ knowledge (mark_mine c ai) →
  ∃ s0, s0 ∈ knowledge ai ∧ cells s ⊆ cells s0 ∖ {[ c ]}.
Proof.
  cbn. intros (s0 & -> & Hs0)%list_elem_of_fmap. exists s0. split; [done|].
  unfold Sentence.mark_mine. case_decide; simpl; set_solver.
Qed.

Lemma knowledge_open_mark_safe c ai :
  knowledge_open ai → knowledge_open (mark_safe c ai).
Proof.
  intros Hinv s x Hs Hx.
  apply elem_of_knowledge_mark_safe in Hs as (s0 & Hs0 & Hsub).
  destruct (Hinv s0 x Hs0) as (? & ? & ? & ?); [set_solver|].
  unfold in_bounds in *. cbn. set_solver.
Qed.

Lemma knowledge_open_mark_mine c ai :
  knowledge_open ai → knowledge_open (mark_mine c ai).
Proof.
  intros Hinv s x Hs Hx.
  apply elem_of_knowledge_mark_mine in Hs as (s0 & Hs0 & Hsub).
  destruct (Hinv s0 x Hs0) as (? & ? & ? & ?); [set_solver|].
  unfold in_bounds in *. cbn. set_solver.
Qed.

Lemma knowledge_open_mark_safes X ai :
  knowledge_open ai → knowledge_open (mark_safes X ai).
Proof.
  intros Hinv. unfold mark_safes.
  apply (set_fold_ind_L (λ r _, knowledge_open r)); [done|].
  intros. by apply knowledge_open_mark_safe.
Qed.

Lemma knowledge_open_mark_mines X ai :
  knowledge_open ai → knowledge_open (mark_mines X ai).
Proof.
  intros Hinv. unfold mark_mines.
  apply (set_fold_ind_L (λ r _, knowledge_open r)); [done|].
  intros. by apply knowledge_open_mark_mine.
Qed.

Lemma knowledge_open_revealed cell ai :
  knowledge_open ai → knowledge_open (revealed cell ai).
Proof.
  intros Hinv s x Hs Hx.
  apply elem_of_knowledge_mark_safe in Hs as (s0 & Hs0 & Hsub).
  cbn in Hs0. destruct (Hinv s0 x Hs0) as (? & ? & ? & ?); [set_solver|].
  unfold in_bounds in *. cbn. set_solver.
Qed.

Lemma knowledge_open_ingest cell cnt ai :
  knowledge_open ai → knowledge_open (ingest cell cnt ai).
Proof.
  intros Hinv%(knowledge_open_revealed cell). unfold ingest.
  repeat case_decide.
  - by apply knowledge_open_mark_safes.
  - by apply knowledge_open_mark_mines.
  - intros s x Hs Hx. cbn [append_sentence knowledge] in Hs.
    apply elem_of_app in Hs as [Hs | ->%list_elem_of_singleton].
    + by apply (Hinv s x).
    + cbn [cells] in Hx. apply elem_of_find_unexplored_neighbors in Hx.
      unfold in_bounds, append_sentence in *. cbn [height width safes mines moves_made].
      naive_solver.
Qed.

(** ** What a pass does to the state *)

Lemma elem_of_pass_mines ai c :
  c ∈ pass_mines ai ↔
  (c ∉ mines ai) ∧ ∃ s, s ∈ knowledge ai ∧ len (cells s) = count s ∧ c ∈ cells s.
Proof.
  unfold pass_mines. rewrite elem_of_difference, elem_of_full_cells. tauto.
Qed.

Lemma elem_of_pass_kn1 ai s :
  s ∈ pass_kn1 ai ↔ ∃ s0, s0 ∈ knowledge ai ∧ s = strip_mine (pass_mines ai) s0.
Proof. unfold pass_kn1. rewrite list_elem_of_fmap. naive_solver. Qed.

Lemma elem_of_pass_safes ai c :
  c ∈ pass_safes ai ↔
  (c ∉ safes ai) ∧ ∃ s, s ∈ pass_kn1 ai ∧ count s = 0 ∧ c ∈ cells s.
Proof.
  unfold pass_safes. rewrite elem_of_difference, elem_of_zero_cells. tauto.
Qed.

Lemma elem_of_pass_kn2 ai s :
  s ∈ pass_kn2 ai ↔
  ∃ s1, s1 ∈ pass_kn1 ai ∧ count s1 ≠ 0 ∧ s = strip_safe (pass_safes ai) s1.
Proof.
  unfold pass_kn2. rewrite list_elem_of_fmap. split.
  - intros (s1 & -> & [??]%list_elem_of_filter). eauto.
  - intros (s1 & ? & ? & ->). exists s1. split; [done|].
    by apply list_elem_of_filter.
Qed.

(** The cells of a sentence after the two marking steps come from a
    sentence that was there before the pass. *)
Lemma pass_kn2_origin ai s :
  s ∈ pass_kn2 ai →
  ∃ s0, s0 ∈ knowledge ai
        ∧ cells s = cells s0 ∖ pass_mines ai ∖ pass_safes ai
        ∧ count s = count s0 - len (cells s0 ∩ pass_mines ai)
        ∧ count s ≠ 0.
Proof.
  intros (s1 & (s0 & Hs0 & ->)%elem_of_pass_kn1 & Hnz & ->)%elem_of_pass_kn2.
  exists s0. done.
Qed.

Lemma pass_state_origin ai s :
  s ∈ knowledge (pass_state ai) →
  ∃ s0, s0 ∈ knowledge ai ∧ cells s ⊆ cells s0 ∖ pass_mines ai ∖ pass_safes ai.
Proof.
  cbn. intros [Hs|Hs]%elem_of_app.
  - apply pass_kn2_origin in Hs as (s0 & ? & -> & _). by exists s0.
  - apply infer_subsets_sound in Hs as (a & b & _ & Hb & _ & _ & -> & _).
    apply pass_kn2_origin in Hb as (s0 & ? & Hc & _). exists s0.
    split; [done|]. cbn. set_solver.
Qed.

Lemma pass_mines_origin ai c :
  c ∈ pass_mines ai → (c ∉ mines ai) ∧ ∃ s0, s0 ∈ knowledge ai ∧ c ∈ cells s0.
Proof. intros (? & s & ? & ? & ?)%elem_of_pass_mines. eauto. Qed.

Lemma pass_safes_origin ai c :
  c ∈ pass_safes ai →
  (c ∉ safes ai) ∧ (c ∉ pass_mines ai) ∧ ∃ s0, s0 ∈ knowledge ai ∧ c ∈ cells s0.
Proof.
  intros (? & s & (s0 & ? & ->)%elem_of_pass_kn1 & _ & Hc)%elem_of_pass_safes.
  cbn in Hc. split_and!; [done | set_solver |]. exists s0. set_solver.
Qed.

Lemma knowledge_open_pass_state ai :
  knowledge_open ai → knowledge_open (pass_state ai).
Proof.
  intros Hinv s c Hs Hc.
  apply pass_state_origin in Hs as (s0 & Hs0 & Hsub).
  destruct (Hinv s0 c Hs0) as (? & ? & ? & ?); [set_solver|].
  unfold in_bounds in *. cbn. set_solver.
Qed.

(** ** The loop *)

Lemma propagate_unfold fuel ai :
  propagate (S fuel) ai =
  if loop_again (pass_rep ai) then propagate fuel (pass_state ai)
  else Ret (pass_state ai).
Proof. cbn [propagate]. by rewrite propagation_pass_eq. Qed.

(** What every pass preserves holds when the loop returns. *)
Lemma propagate_invariant (P : MinesweeperAI → Prop) :
  (∀ ai, P ai → P (pass_state ai)) →
  ∀ fuel ai ai', P ai → propagate fuel ai = Ret ai' → P ai'.
Proof.
  intros Hstep. induction fuel as [|fuel IH]; intros ai ai' HP; [done|].
  rewrite propagate_unfold. destruct (loop_again (pass_rep ai)).
  - apply IH. by apply Hstep.
  - intros [= <-]. by apply Hstep.
Qed.

(** The loop raises no exception. *)
Lemma propagate_no_exception fuel : ∀ ai e, propagate fuel ai ≠ Raise e.
Proof.
  induction fuel as [|fuel IH]; intros ai e; [done|].
  rewrite propagate_unfold. destruct (loop_again (pass_rep ai)); [apply IH | done].
Qed.

(** More fuel does not change what the loop returns. *)
Lemma propagate_fuel_mono fuel : ∀ fuel' ai ai',
  (fuel ≤ fuel')%nat → propagate fuel ai = Ret ai' → propagate fuel' ai = Ret ai'.
Proof.
  induction fuel as [|fuel IH]; intros fuel' ai ai' Hle; [done|].
  destruct fuel' as [|fuel']; [lia|].
  rewrite !propagate_unfold. destruct (loop_again (pass_rep ai)); [|done].
  apply IH. lia.
Qed.

(** The loop returns from a state in which a pass finds nothing new. *)
Lemma propagate_last_pass fuel : ∀ ai ai',
  propagate fuel ai = Ret ai' →
  ∃ ai_last, ai' = pass_state ai_last ∧ loop_again (pass_rep ai_last) = false.
Proof.
  induction fuel as [|fuel IH]; intros ai ai'; [done|].
  rewrite propagate_unfold. destruct (loop_again (pass_rep ai)) eqn:Hl.
  - apply IH.
  - intros [= <-]. by exists ai.
Qed.

Lemma loop_again_false r :
  loop_again r = false ↔
  mines_to_be_marked r = ∅ ∧ safes_to_be_marked r = ∅ ∧ new_knowledge r = [].
Proof.
  unfold loop_again. rewrite !orb_false_iff, !negb_false_iff.
  rewrite !bool_decide_eq_true. tauto.
Qed.

Lemma knowledge_open_add_knowledge fuel cell cnt ai ai' :
  knowledge_open ai → add_knowledge fuel cell cnt ai = Ret ai' →
  knowledge_open ai'.
Proof.
  intros Hinv. unfold add_knowledge.
  apply (propagate_invariant knowledge_open).
  - apply knowledge_open_pass_state.
  - by apply knowledge_open_ingest.
Qed.

(** C10: each operation of the solver keeps the invariant that every
    cell of every sentence of the knowledge list is inside the grid and
    is in none of [safes], [mines] and [moves_made]. *)
Theorem operations_keep_knowledge_open (op : operation) (ai ai' : MinesweeperAI) :
  knowledge_open ai → run_operation op ai = Ret ai' → knowledge_open ai'.
Proof.
  intros Hinv. destruct op as [c | c | fuel c cnt | | samples]; cbn.
  - intros [= <-]. by apply knowledge_open_mark_safe.
  - intros [= <-]. by apply knowledge_open_mark_mine.
  - by apply knowledge_open_add_knowledge.
  - intros [= <-]. unfold make_safe_move. by case_decide.
  - induction samples as [|c samples IH]; cbn.
    + by case_decide.
    + case_decide; [done|]. case_decide; [|done]. by intros [= <-].
Qed.

Lemma operations_keep_knowledge_open_witness :
  ∃ ai', run_operation (OpAddKnowledge 3 (1, 2) 1) scenario_state_2 = Ret ai'
         ∧ knowledge_open ai'.
Proof.
  eexists. split; [by vm_compute|].
  apply (operations_keep_knowledge_open (OpAddKnowledge 3 (1, 2) 1)
           scenario_state_2); [|by vm_compute].
  intros s' c ->%list_elem_of_singleton Hc. cbn in Hc.
  unfold in_bounds. cbn [height width safes mines moves_made scenario_state_2].
  set_unfold. destruct Hc as [[[[-> | ->] | ->] | ->] | ->]; cbn;
    split_and!; try lia; naive_solver.
Defined.

(** ** Monotonicity and disjointness of [safes] and [mines] *)

Lemma ingest_grows cell cnt ai :
  safes ai ⊆ safes (ingest cell cnt ai) ∧ mines ai ⊆ mines (ingest cell cnt ai)
  ∧ cell ∈ safes (ingest cell cnt ai)
  ∧ {[ cell ]} ∪ moves_made ai = moves_made (ingest cell cnt ai).
Proof.
  unfold ingest. cbv zeta.
  generalize (find_unexplored_neighbors (revealed cell ai) cell). intros U.
  repeat case_decide; rewrite ?mark_safes_eq, ?mark_mines_eq;
    cbn [safes mines moves_made revealed mark_safe record_move append_sentence];
    set_solver.
Qed.

Lemma pass_state_grows ai :
  safes ai ⊆ safes (pass_state ai) ∧ mines ai ⊆ mines (pass_state ai)
  ∧ moves_made ai = moves_made (pass_state ai).
Proof. cbn. set_solver. Qed.

Lemma add_knowledge_grows fuel cell cnt ai ai' :
  add_knowledge fuel cell cnt ai = Ret ai' →
  safes ai ⊆ safes ai' ∧ mines ai ⊆ mines ai'
  ∧ cell ∈ safes ai' ∧ cell ∈ moves_made ai'.
Proof.
  unfold add_knowledge. intros Hrun.
  pose proof (ingest_grows cell cnt ai) as (Hs & Hm & Hc & Hmv).
  revert Hrun.
  apply (propagate_invariant (λ st,
    safes ai ⊆ safes st ∧ mines ai ⊆ mines st
    ∧ cell ∈ safes st ∧ cell ∈ moves_made st)).
  - intros st (? & ? & ? & ?).
    pose proof (pass_state_grows st) as (? & ? & Heq). rewrite <- Heq.
    set_solver.
  - set_solver.
Qed.










(** ** Cells outside the grid *)

(** C9, as stated, fails: [add_knowledge((3,1), 0)] on a fresh 3x3 solver
    (row 3 is outside the grid) returns normally; the cell is recorded as
    a move made and as safe, and its neighbours inside the grid, (2,0),
    (2,1) and (2,2), are marked safe. *)
Lemma out_of_bounds_cell_accepted :
  ∃ ai, ¬ in_bounds (init 3 3) (3, 1)
        ∧ add_knowledge 1 (3, 1) 0 (init 3 3) = Ret ai
        ∧ moves_made ai = {[ (3, 1) ]}
        ∧ safes ai = {[ (3, 1); (2, 0); (2, 1); (2, 2) ]}.
Proof.
  eexists. split_and!; [|by vm_compute|compute_done..].
  unfold in_bounds; cbn. lia.
Qed.

(** C9, amended: a cell outside the grid is not rejected.  For such a
    cell [add_knowledge] raises no exception, and when it returns the
    cell is in [moves_made] and in [safes]; the neighbours it looks at
    are clipped to the grid, so no cell outside the grid enters a
    sentence. *)
Theorem add_knowledge_accepts_out_of_bounds
    (fuel : nat) (cell : Cell) (cnt : Z) (ai : MinesweeperAI) :
  ¬ in_bounds ai cell →
  (∀ e, add_knowledge fuel cell cnt ai ≠ Raise e)
  ∧ (∀ c, c ∈ find_unexplored_neighbors (revealed cell ai) cell → in_bounds ai c)
  ∧ (∀ ai', add_knowledge fuel cell cnt ai = Ret ai' →
            cell ∈ moves_made ai' ∧ cell ∈ safes ai').
Proof.
  intros _. split_and!.
  - intros e. apply propagate_no_exception.
  - intros c Hc. by apply elem_of_find_unexplored_neighbors in Hc as [? _].
  - intros ai' Hrun. by apply add_knowledge_grows in Hrun as (_ & _ & ? & ?).
Qed.

Lemma add_knowledge_accepts_out_of_bounds_witness :
  ∃ ai, add_knowledge 1 (3, 1) 0 (init 3 3) = Ret ai
        ∧ (3, 1) ∈ moves_made ai ∧ (3, 1) ∈ safes ai.
Proof.
  eexists. split; [by vm_compute|].
  refine (proj2 (proj2 (add_knowledge_accepts_out_of_bounds
                          1 (3, 1) 0 (init 3 3) _)) _ _).
  - unfold in_bounds; cbn. lia.
  - by vm_compute.
Defined.

(** ** Termination of the loop *)

Lemma filter_all {A} (P : A → Prop) `{∀ x, Decision (P x)} (l : list A) :
  (∀ x, x ∈ l → P x) → filter P l = l.
Proof.
  induction l as [|x l IH]; intros Hall; [done|].
  rewrite filter_cons, decide_True by (apply Hall; left).
  f_equal. apply IH. intros y Hy. apply Hall. by right.
Qed.

(** A pass in which nothing is marked leaves the sentences that have a
    count other than 0 as they are. *)
Lemma pass_kn1_nothing_marked ai :
  pass_mines ai = ∅ → pass_kn1 ai = knowledge ai.
Proof.
  intros Hm. unfold pass_kn1. rewrite Hm.
  rewrite <- (list_fmap_id (knowledge ai)) at 2.
  apply list_fmap_ext. intros _ s _. apply strip_mine_empty.
Qed.

Lemma pass_kn2_nothing_marked ai :
  pass_mines ai = ∅ → pass_safes ai = ∅ →
  pass_kn2 ai = filter (λ s, count s ≠ 0) (knowledge ai).
Proof.
  intros Hm Hs. unfold pass_kn2. rewrite Hs, pass_kn1_nothing_marked by done.
  rewrite <- (list_fmap_id (filter _ (knowledge ai))) at 2.
  apply list_fmap_ext. intros _ s _. apply strip_safe_empty.
Qed.

Lemma loop_again_new_knowledge r s :
  s ∈ new_knowledge r → loop_again r = true.
Proof.
  intros Hs. unfold loop_again.
  rewrite (bool_decide_eq_false_2 (new_knowledge r = [])).
  - apply orb_true_r.
  - intros Heq. rewrite Heq in Hs. by apply elem_of_nil in Hs.
Qed.

(** Among the sentences of a list that satisfy [P], one has the least
    count. *)
Lemma least_count (P : Sentence → Prop) `{∀ s, Decision (P s)}
    (l : list Sentence) :
  (∃ s, s ∈ l ∧ P s) →
  ∃ s, s ∈ l ∧ P s ∧ ∀ t, t ∈ l → P t → count s ≤ count t.
Proof.
  induction l as [|x l IH]; intros (s & Hs & HP).
  - by apply elem_of_nil in Hs.
  - destruct (decide (Exists P l)) as [Hex%Exists_exists|Hno].
    + destruct (IH Hex) as (m & Hm & HPm & Hleast).
      destruct (decide (P x ∧ count x < count m)) as [[HPx Hlt]|Hge].
      * exists x. split_and!; [by left | done |].
        intros t [->|Ht]%elem_of_cons HPt; [lia|].
        specialize (Hleast t Ht HPt). lia.
      * exists m. split_and!; [by right | done |].
        intros t [->|Ht]%elem_of_cons HPt; [|by apply Hleast].
        apply not_and_l in Hge as [?|?]; [done | lia].
    + rewrite Exists_exists in Hno.
      apply elem_of_cons in Hs as [->|Hs]; [|by destruct Hno; eauto].
      exists x. split_and!; [by left | done |].
      intros t [->|Ht]%elem_of_cons HPt; [lia|]. destruct Hno; eauto.
Qed.

Lemma stuck_nothing_marked X ai :
  2 ≤ len X → stuck X ai →
  pass_mines ai = ∅ ∧ pass_safes ai = ∅ ∧ pass_kn2 ai = knowledge ai.
Proof.
  intros Hlen (HA & HB & Hall).
  assert (pass_mines ai = ∅) as Hm.
  { apply set_eq. intros c. split; [|set_solver].
    intros (_ & s & Hs & Htight & _)%elem_of_pass_mines.
    destruct (Hall s Hs) as [[Hc Hn] | (Hc & Hn & Hle)]; rewrite Hc in Htight.
    - rewrite len_empty in Htight. lia.
    - lia. }
  assert (pass_safes ai = ∅) as Hs.
  { apply set_eq. intros c. split; [|set_solver].
    intros (_ & s & Hs & Hz & _)%elem_of_pass_safes.
    rewrite pass_kn1_nothing_marked in Hs by done.
    destruct (Hall s Hs) as [[Hc Hn] | (Hc & Hn & Hle)]; [lia|].
    rewrite Hz in Hn. done. }
  split_and!; [done..|].
  rewrite pass_kn2_nothing_marked by done. apply filter_all.
  intros s Hin Hz. destruct (Hall s Hin) as [[Hc Hn] | (Hc & Hn & Hle)]; [lia|].
  rewrite Hz in Hn. done.
Qed.

(** From a stuck state a pass leads to a stuck state and asks for one
    more pass. *)
Lemma stuck_pass X ai :
  2 ≤ len X → stuck X ai →
  stuck X (pass_state ai) ∧ loop_again (pass_rep ai) = true.
Proof.
  intros Hlen Hst. pose proof Hst as (HA & [c0 HB] & Hall).
  destruct (stuck_nothing_marked X ai Hlen Hst) as (Hm & Hs & Hkn).
  assert (X ≠ ∅) as Hne.
  { intros HX. apply len_zero_iff in HX. lia. }
  assert (¬ X ⊆ ∅) as Hsub by set_solver.
  assert (∀ s, s ∈ infer_subsets (knowledge ai) →
               cells s = X ∧ Z.odd (count s) = true ∧ count s ≤ 1) as Hnew.
  { intros s (a & b & Ha & Hb & Hab & Hsubab & -> & _)%infer_subsets_sound.
    destruct (Hall a Ha) as [[Hca Hna] | (Hca & Hna & Hla)],
             (Hall b Hb) as [[Hcb Hnb] | (Hcb & Hnb & Hlb)];
      rewrite Hca, Hcb in *; try done.
    cbn. split_and!; [set_solver | | lia].
    rewrite Hna. replace (count b - 2) with (count b + 2 * (-1)) by lia.
    by rewrite Z.odd_add_mul_2. }
  split.
  - unfold stuck. cbn [knowledge pass_state]. rewrite Hkn. split_and!.
    + apply elem_of_app. by left.
    + exists c0. apply elem_of_app. by left.
    + intros s [Hs0|Hs0]%elem_of_app; [by apply Hall | right; by apply Hnew].
  - destruct (least_count (λ s, cells s = X) (knowledge ai))
      as (m & Hmin & Hcm & Hleast); [by exists (mkSentence X c0)|].
    destruct (infer_subsets_complete (knowledge ai) (mkSentence ∅ 2) m)
      as [Hold | Hq]; [done | done | by rewrite Hcm | set_solver | |].
    + specialize (Hleast _ Hold). cbn in Hleast.
      rewrite Hcm in Hleast. specialize (Hleast ltac:(set_solver)). lia.
    + apply (loop_again_new_knowledge _ (difference (mkSentence ∅ 2) m)).
      cbn. by rewrite Hkn.
Qed.

Lemma stuck_diverges X fuel :
  2 ≤ len X → ∀ ai, stuck X ai → propagate fuel ai = OutOfFuel.
Proof.
  intros Hlen. induction fuel as [|fuel IH]; intros ai Hst; [done|].
  rewrite propagate_unfold. destruct (stuck_pass X ai Hlen Hst) as [Hst' ->].
  by apply IH.
Qed.

(** A knowledge list of [({}, 2)] and one sentence over [X] with count 1
    is stuck. *)
Lemma stuck_two_sentences X ai :
  knowledge ai = [mkSentence ∅ 2; mkSentence X 1] → stuck X ai.
Proof.
  intros Hkn. unfold stuck. rewrite Hkn. split_and!.
  - by left.
  - exists 1. right. by left.
  - intros s [->|Hs]%elem_of_cons; [by left|].
    apply list_elem_of_singleton in Hs as ->. by right.
Qed.

(** With counts that no mine layout has, the loop does not end: after two
    calls on a fresh 3x4 solver the knowledge list is [({}, 2)]; the call
    [add_knowledge((0,2), 1)] adds [({(0,3), (1,3)}, 1)], and from then
    on each pass derives one more sentence over the same two cells
    (counts -1, -3, ...). *)
Lemma propagation_loop_diverges :
  ∃ ai, run_calls 1 [((0, 0), 2); ((1, 1), 0)] (init 3 4) = Ret ai
        ∧ knowledge ai = [mkSentence ∅ 2]
        ∧ knowledge (ingest (0, 2) 1 ai)
          = [mkSentence ∅ 2; mkSentence {[ (0, 3); (1, 3) ]} 1]
        ∧ ∀ fuel, add_knowledge fuel (0, 2) 1 ai = OutOfFuel.
Proof.
  eexists. split; [by vm_compute|]. split_and!; [by vm_compute..|].
  intros fuel. apply (stuck_diverges stuck_cells); [compute_done|].
  apply stuck_two_sentences. by vm_compute.
Qed.

(** More fuel does not change what a sequence of calls returns, and a
    sequence of calls runs its parts one after the other. *)
Lemma run_calls_fuel_mono fuel fuel' calls : ∀ ai ai',
  (fuel ≤ fuel')%nat →
  run_calls fuel calls ai = Ret ai' → run_calls fuel' calls ai = Ret ai'.
Proof.
  induction calls as [|[cell cnt] calls IH]; intros ai ai' Hle; [done|].
  cbn [run_calls]. unfold add_knowledge.
  destruct (propagate fuel (ingest cell cnt ai)) as [ai1| |] eqn:Hrun; [|done..].
  rewrite (propagate_fuel_mono fuel fuel' _ ai1) by done.
  cbn. by apply IH.
Qed.

Lemma run_calls_app fuel calls1 calls2 : ∀ ai,
  run_calls fuel (calls1 ++ calls2) ai
  = ai' ← run_calls fuel calls1 ai; run_calls fuel calls2 ai'.
Proof.
  induction calls1 as [|[cell cnt] calls1 IH]; intros ai; [done|].
  cbn [app run_calls].
  destruct (add_knowledge fuel cell cnt ai) as [ai1| |]; [|done..].
  cbn. apply IH.
Qed.

(** C2 fails on the code, in a game played by the rules.  On the 3x8
    board with mines at (0,1), (1,0), (1,1) and (1,6) a player reveals
    (0,0), (1,2), (1,3) and (2,1), none of them a mine, and passes on the
    counts the game shows (3, 2, 0, 2).  The four calls return; they
    leave the sentence [({}, 2)] in the knowledge list and the cell
    (2,0), which is no mine, in [mines].  The next reveal, (0,5) of
    count 1, adds [({(0,6), (1,5), (1,6)}, 1)], and then every pass derives
    one more sentence over these three cells (counts -1, -3, ...): the
    call returns for no number of passes, and so the game of five calls
    never ends. *)
Theorem truthful_game_never_returns :
  Forall (λ c, board_at overcount_game c.1 c.2 = false)
         (overcount_reveals ++ [(0, 5)])
  ∧ truthful_calls overcount_game (overcount_reveals ++ [(0, 5)])
    = [((0, 0), 3); ((1, 2), 2); ((1, 3), 0); ((2, 1), 2); ((0, 5), 1)]
  ∧ (∀ fuel, run_calls (S fuel)
               (truthful_calls overcount_game overcount_reveals) (init 3 8)
             = Ret overcount_state)
  ∧ board_at overcount_game 2 0 = false
  ∧ (2, 0) ∈ mines overcount_state
  ∧ knowledge (ingest (0, 5) 1 overcount_state)
    = [mkSentence ∅ 2; mkSentence overcount_cells 1]
  ∧ (∀ fuel, add_knowledge fuel (0, 5) 1 overcount_state = OutOfFuel)
  ∧ ∀ fuel, run_calls fuel
              (truthful_calls overcount_game (overcount_reveals ++ [(0, 5)]))
              (init 3 8)
            = OutOfFuel.
Proof.
  assert (∀ fuel, run_calls (S fuel)
            (truthful_calls overcount_game overcount_reveals) (init 3 8)
          = Ret overcount_state) as Hfour.
  { intros fuel. apply (run_calls_fuel_mono 1); [lia | by vm_compute]. }
  assert (knowledge (ingest (0, 5) 1 overcount_state)
          = [mkSentence ∅ 2; mkSentence overcount_cells 1]) as Hkn
    by (by vm_compute).
  assert (∀ fuel, add_knowledge fuel (0, 5) 1 overcount_state = OutOfFuel)
    as Hfifth.
  { intros fuel. apply (stuck_diverges overcount_cells); [compute_done|].
    by apply stuck_two_sentences. }
  split_and!; [|done..|].
  - repeat constructor.
  - intros [|fuel]; [done|].
    unfold truthful_calls. rewrite fmap_app.
    fold (truthful_calls overcount_game overcount_reveals).
    rewrite run_calls_app, Hfour.
    change (run_calls (S fuel) [((0, 5), 1)] overcount_state = OutOfFuel).
    cbn [run_calls]. by rewrite Hfifth.
Qed.

(** *** Consistent knowledge stays consistent *)

Section consistency.

(** The mine layout the sentences are true of. *)
Context (M : gset Cell).

Lemma consistent_full_cells kn :
  consistent M kn → full_cells kn ⊆ M.
Proof.
  intros Hc c (s & Hs & Htight & Hin)%elem_of_full_cells.
  specialize (Hc s Hs). rewrite Hc in Htight.
  assert (cells s ∩ M = cells s) as Heq.
  { apply len_subseteq_eq; [set_solver | lia]. }
  set_solver.
Qed.

Lemma consistent_zero_cells kn :
  consistent M kn → zero_cells kn ## M.
Proof.
  intros Hc c (s & Hs & Hz & Hin)%elem_of_zero_cells HM.
  specialize (Hc s Hs). rewrite Hz in Hc. symmetry in Hc.
  apply len_zero_iff in Hc. set_solver.
Qed.

Lemma consistent_strip_mine X s :
  X ⊆ M → count s = len (cells s ∩ M) →
  count (strip_mine X s) = len (cells (strip_mine X s) ∩ M).
Proof.
  intros HX Hs. cbn. rewrite Hs.
  rewrite (len_split (cells s ∩ M) X).
  replace (cells s ∩ M ∩ X) with (cells s ∩ X) by set_solver.
  replace (cells s ∩ M ∖ X) with (cells s ∖ X ∩ M) by set_solver.
  lia.
Qed.

Lemma consistent_strip_safe X s :
  X ## M → count s = len (cells s ∩ M) →
  count (strip_safe X s) = len (cells (strip_safe X s) ∩ M).
Proof.
  intros HX Hs. cbn. rewrite Hs. f_equal. set_solver.
Qed.

Lemma consistent_difference a b :
  cells a ⊆ cells b →
  count a = len (cells a ∩ M) → count b = len (cells b ∩ M) →
  count (difference a b) = len (cells (difference a b) ∩ M).
Proof.
  intros Hsub Ha Hb. cbn. rewrite Ha, Hb.
  rewrite (len_split (cells b ∩ M) (cells a)).
  replace (cells b ∩ M ∩ cells a) with (cells a ∩ M) by set_solver.
  replace (cells b ∩ M ∖ cells a) with (cells b ∖ cells a ∩ M) by set_solver.
  lia.
Qed.

Lemma consistent_pass_kn1 ai :
  consistent M (knowledge ai) → consistent M (pass_kn1 ai).
Proof.
  intros Hc s (s0 & Hs0 & ->)%elem_of_pass_kn1.
  apply consistent_strip_mine; [|by apply Hc].
  unfold pass_mines. pose proof (consistent_full_cells _ Hc). set_solver.
Qed.

Lemma consistent_pass_kn2 ai :
  consistent M (knowledge ai) → consistent M (pass_kn2 ai).
Proof.
  intros Hc%consistent_pass_kn1 s (s1 & Hs1 & _ & ->)%elem_of_pass_kn2.
  apply consistent_strip_safe; [|by apply Hc].
  unfold pass_safes. pose proof (consistent_zero_cells _ Hc). set_solver.
Qed.

Lemma consistent_pass_state ai :
  consistent M (knowledge ai) → consistent M (knowledge (pass_state ai)).
Proof.
  intros Hc%consistent_pass_kn2 s. cbn. intros [Hs|Hs]%elem_of_app.
  - by apply Hc.
  - apply infer_subsets_sound in Hs as (a & b & Ha & Hb & _ & Hsub & -> & _).
    apply consistent_difference; [done | by apply Hc..].
Qed.

(** Consistent sentences with the same cells are the same sentence. *)
Lemma consistent_same_cells s t :
  count s = len (cells s ∩ M) → count t = len (cells t ∩ M) →
  cells s = cells t → s = t.
Proof.
  intros Hs Ht Heq. apply Sentence_eq; [done|]. by rewrite Hs, Ht, Heq.
Qed.

End consistency.

(** The invariant of the knowledge list gives the second condition. *)
Lemma knowledge_open_cells_not_safe ai :
  knowledge_open ai → cells_not_safe ai.
Proof.
  intros Hinv s Hs c Hc Hsafe. by destruct (Hinv s c Hs Hc) as (_ & ? & _).
Qed.

Lemma cells_not_safe_pass_state ai :
  cells_not_safe ai → cells_not_safe (pass_state ai).
Proof.
  intros Hns s (s0 & Hs0 & Hsub)%pass_state_origin.
  specialize (Hns s0 Hs0). cbn. set_solver.
Qed.

Lemma elem_of_all_cells kn c :
  c ∈ all_cells kn ↔ ∃ s, s ∈ kn ∧ c ∈ cells s.
Proof.
  unfold all_cells. rewrite elem_of_union_list. split.
  - intros (X & (s & -> & Hs)%list_elem_of_fmap & Hc). eauto.
  - intros (s & Hs & Hc). exists (cells s). split; [|done].
    by apply list_elem_of_fmap_2.
Qed.

Lemma all_cells_pass_state U ai :
  all_cells (knowledge ai) ⊆ U → all_cells (knowledge (pass_state ai)) ⊆ U.
Proof.
  intros HU c (s & (s0 & Hs0 & Hsub)%pass_state_origin & Hc)%elem_of_all_cells.
  apply HU, elem_of_all_cells. exists s0. set_solver.
Qed.

(** *** The measure *)

Lemma elem_of_powerset (U Y : gset Cell) : Y ⊆ U → Y ∈ powerset U.
Proof.
  unfold powerset. revert Y.
  apply (set_fold_ind_L (λ (r : gset (gset Cell)) (X : gset Cell),
                           ∀ Y : gset Cell, Y ⊆ X → Y ∈ r)).
  - intros Y HY. assert (Y = ∅) as -> by set_solver. set_solver.
  - intros x X r Hx IH Y HY. apply elem_of_union.
    destruct (decide (x ∈ Y)) as [Hin|Hout].
    + right. apply elem_of_map. exists (Y ∖ {[ x ]}). split.
      * apply set_eq. intros y. destruct (decide (y = x)); set_solver.
      * apply IH. set_solver.
    + left. apply IH. set_solver.
Qed.

Lemma elem_of_shapes (kn : list Sentence) (Y : gset Cell) :
  Y ∈ shapes kn ↔ Y ≠ ∅ ∧ ∃ s, s ∈ kn ∧ Y = cells s.
Proof.
  unfold shapes. rewrite elem_of_difference, elem_of_list_to_set,
    list_elem_of_fmap, not_elem_of_singleton. naive_solver.
Qed.

Lemma size_difference_mono (U A B : gset Cell) :
  A ⊆ B → (size (U ∖ B) ≤ size (U ∖ A))%nat.
Proof. intros H. apply subseteq_size. set_solver. Qed.

Lemma size_difference_strict (U A B : gset Cell) (c : Cell) :
  A ⊆ B → c ∈ U → c ∈ B → c ∉ A → (size (U ∖ B) < size (U ∖ A))%nat.
Proof. intros. apply subset_size. set_solver. Qed.

(** In a pass that marks nothing, the sentences with a non-empty cell
    set all stay. *)
Lemma pass_kn2_keeps ai s :
  cells_not_safe ai → pass_mines ai = ∅ → pass_safes ai = ∅ →
  s ∈ knowledge ai → cells s ≠ ∅ → s ∈ pass_kn2 ai.
Proof.
  intros Hns Hm Hs Hin Hne.
  rewrite pass_kn2_nothing_marked by done.
  apply list_elem_of_filter. split; [|done]. intros Hz.
  apply set_choose_L in Hne as [c Hc].
  assert (c ∈ pass_safes ai) as Hcs; [|set_solver].
  apply elem_of_pass_safes. split; [specialize (Hns s Hin); set_solver|].
  exists s. by rewrite pass_kn1_nothing_marked.
Qed.

(** A pass that asks for another one makes the measure smaller, in the
    lexicographic order of its two components. *)
Lemma pass_progress U M ai :
  consistent M (knowledge ai) → cells_not_safe ai →
  all_cells (knowledge ai) ⊆ U →
  loop_again (pass_rep ai) = true →
  (unmarked U (pass_state ai) < unmarked U ai)%nat
  ∨ (unmarked U (pass_state ai) = unmarked U ai
     ∧ (unseen U (pass_state ai) < unseen U ai)%nat).
Proof.
  intros Hcons Hns HU Hloop. unfold unmarked, unseen.
  cbn [mines safes knowledge pass_state].
  pose proof (size_difference_mono U (mines ai) (pass_mines ai ∪ mines ai)
                ltac:(set_solver)) as Hmle.
  pose proof (size_difference_mono U (safes ai) (pass_safes ai ∪ safes ai)
                ltac:(set_solver)) as Hsle.
  destruct (decide (pass_mines ai = ∅)) as [Hm|Hm].
  2:{ left. apply set_choose_L in Hm as [c Hc].
      pose proof (pass_mines_origin ai c Hc) as (Hnm & s0 & Hs0 & Hcs0).
      pose proof (size_difference_strict U (mines ai)
                    (pass_mines ai ∪ mines ai) c) as Hlt.
      assert (c ∈ U) by (apply HU, elem_of_all_cells; eauto).
      specialize (Hlt ltac:(set_solver) ltac:(done) ltac:(set_solver)
                      ltac:(done)). lia. }
  destruct (decide (pass_safes ai = ∅)) as [Hs|Hs].
  2:{ left. apply set_choose_L in Hs as [c Hc].
      pose proof (pass_safes_origin ai c Hc) as (Hnm & _ & s0 & Hs0 & Hcs0).
      pose proof (size_difference_strict U (safes ai)
                    (pass_safes ai ∪ safes ai) c) as Hlt.
      assert (c ∈ U) by (apply HU, elem_of_all_cells; eauto).
      specialize (Hlt ltac:(set_solver) ltac:(done) ltac:(set_solver)
                      ltac:(done)). lia. }
  right. rewrite Hm, Hs, !(left_id_L ∅ (∪)). split; [done|].
  destruct (infer_subsets (pass_kn2 ai)) as [|s nk] eqn:Hnk.
  { exfalso. revert Hloop. unfold loop_again, pass_rep. cbn.
    rewrite Hm, Hs, Hnk. rewrite !bool_decide_eq_true_2 by done. done. }
  assert (s ∈ infer_subsets (pass_kn2 ai)) as Hsin by (rewrite Hnk; left).
  rewrite <- Hnk.
  pose proof (consistent_pass_kn2 M ai Hcons) as Hcons2.
  pose proof (consistent_pass_state M ai Hcons) as Hcons'.
  pose proof (all_cells_pass_state U ai HU) as HU'.
  pose proof Hsin as (a & b & Ha & Hb & Hab & Hsub & Heq & Hfresh)%infer_subsets_sound.
  assert (cells s ≠ ∅) as Hne.
  { rewrite Heq. cbn. intros Hempty. apply Hab.
    apply set_eq. intros c. split; [set_solver|]. intros Hc.
    destruct (decide (c ∈ cells a)); [done|]. set_solver. }
  apply subset_size. split.
  - intros Y [HY Hnot]%elem_of_difference. apply elem_of_difference.
    split; [done|]. intros HYin. apply Hnot.
    apply elem_of_shapes in HYin as (HYne & t & Ht & ->).
    apply elem_of_shapes. split; [done|]. exists t. split; [|done].
    apply elem_of_app. left. by apply pass_kn2_keeps.
  - intros Hsub'. specialize (Hsub' (cells s)).
    assert (cells s ∈ powerset U ∖ shapes (knowledge ai)) as Hin.
    { apply elem_of_difference. split.
      - apply elem_of_powerset. intros c Hc. apply HU', elem_of_all_cells.
        exists s. split; [|done]. cbn. apply elem_of_app. by right.
      - intros (_ & t & Ht & Hct)%elem_of_shapes.
        apply Hfresh.
        assert (t ∈ pass_kn2 ai) as Ht2
          by (apply pass_kn2_keeps; [done..|by rewrite <- Hct]).
        replace s with t; [done|].
        apply (consistent_same_cells M); [by apply Hcons2 | | done].
        apply Hcons'. cbn. apply elem_of_app. by right. }
    apply Hsub' in Hin. apply elem_of_difference in Hin as [_ Hnot].
    apply Hnot, elem_of_shapes. split; [done|]. exists s. split; [|done].
    apply elem_of_app. by right.
Qed.

(** The second hypothesis cannot be dropped: with (0,0) known safe, the
    consistent sentences [({(0,1),(0,2)}, 1)] and
    [({(0,0),(0,1),(0,2)}, 1)] make every pass remove the sentence
    [({(0,0)}, 0)] and derive it again. *)
Lemma propagation_loop_cycles :
  consistent {[ (0, 1) ]} (knowledge cycling_state)
  ∧ ∀ fuel, propagate fuel cycling_state = OutOfFuel.
Proof.
  split.
  - intros s Hs. unfold cycling_state in Hs. cbn [knowledge] in Hs.
    repeat (apply elem_of_cons in Hs as [->|Hs]; [by vm_compute|]).
    by apply elem_of_nil in Hs.
  - assert (pass_state cycling_state = cycling_state) as Hfix by (by vm_compute).
    assert (loop_again (pass_rep cycling_state) = true) as Hloop
      by (by vm_compute).
    induction fuel as [|fuel IH]; [done|].
    by rewrite propagate_unfold, Hloop, Hfix.
Qed.

Lemma propagate_terminates_measure U M : ∀ n1 n2 ai,
  (unmarked U ai ≤ n1)%nat → (unseen U ai ≤ n2)%nat →
  consistent M (knowledge ai) → cells_not_safe ai →
  all_cells (knowledge ai) ⊆ U →
  ∃ fuel ai', propagate fuel ai = Ret ai'.
Proof.
  induction n1 as [n1 IH1] using lt_wf_ind.
  induction n2 as [n2 IH2] using lt_wf_ind.
  intros ai Hn1 Hn2 Hcons Hns HU.
  destruct (loop_again (pass_rep ai)) eqn:Hloop.
  - assert (∃ fuel ai', propagate fuel (pass_state ai) = Ret ai')
      as (fuel & ai' & Hrun).
    { pose proof (consistent_pass_state M ai Hcons).
      pose proof (cells_not_safe_pass_state ai Hns).
      pose proof (all_cells_pass_state U ai HU).
      destruct (pass_progress U M ai Hcons Hns HU Hloop) as [Hlt | [Heq Hlt]].
      - apply (IH1 (unmarked U (pass_state ai)) ltac:(lia)
                   (unseen U (pass_state ai))); done || lia.
      - apply (IH2 (unseen U (pass_state ai)) ltac:(lia)); done || lia. }
    exists (S fuel), ai'. by rewrite propagate_unfold, Hloop.
  - exists 1%nat, (pass_state ai). by rewrite propagate_unfold, Hloop.
Qed.

(** X22: the loop ends from every state whose sentences are all true of
    one mine layout (the count of a sentence is the number of its cells
    that are mines) and have no cell that is already in [safes]: after
    finitely many passes a pass marks no cell and adds no sentence, and
    [add_knowledge] returns the state that pass leaves. *)
Theorem propagation_terminates (M : gset Cell) (ai : MinesweeperAI) :
  consistent M (knowledge ai) →
  cells_not_safe ai →
  ∃ fuel ai',
    propagate fuel ai = Ret ai'
    ∧ (∃ ai_last r,
         propagation_pass ai_last = Ret (ai', r)
         ∧ mines_to_be_marked r = ∅
         ∧ safes_to_be_marked r = ∅
         ∧ new_knowledge r = [])
    ∧ (∀ cell cnt ai0,
         ingest cell cnt ai0 = ai → add_knowledge fuel cell cnt ai0 = Ret ai').
Proof.
  intros Hcons Hns.
  destruct (propagate_terminates_measure (all_cells (knowledge ai)) M
              (unmarked (all_cells (knowledge ai)) ai)
              (unseen (all_cells (knowledge ai)) ai) ai)
    as (fuel & ai' & Hrun); [done..|].
  exists fuel, ai'. split_and!; [done | |].
  - apply propagate_last_pass in Hrun as (ai_last & -> & Hquiet).
    apply loop_again_false in Hquiet as (? & ? & ?).
    exists ai_last, (pass_rep ai_last). by rewrite propagation_pass_eq.
  - intros cell cnt ai0 <-. done.
Qed.

Lemma propagation_terminates_witness :
  ingest (1, 2) 1 scenario_state_2 = scenario_loop_entry_3
  ∧ ∃ fuel ai', add_knowledge fuel (1, 2) 1 scenario_state_2 = Ret ai'.
Proof.
  assert (ingest (1, 2) 1 scenario_state_2 = scenario_loop_entry_3) as Hin
    by (by vm_compute).
  split; [exact Hin|].
  destruct (propagation_terminates {[ (2, 2) ]} scenario_loop_entry_3)
    as (fuel & ai' & _ & _ & Hadd).
  - intros s [->|Hs]%elem_of_cons; [by vm_compute|].
    apply list_elem_of_singleton in Hs as ->. by vm_compute.
  - intros s [->|Hs]%elem_of_cons; [compute_done|].
    apply list_elem_of_singleton in Hs as ->. compute_done.
  - exists fuel, ai'. by apply Hadd.
Defined.

(** *** Where the first condition comes from

    The count of a new sentence is the count of the oracle, which also
    counts the neighbours that are already known mines, while the cells of
    the sentence leave those out.  In the game below the oracle is
    truthful: revealing (0,0) (count 3) makes its three neighbours known
    mines, and revealing (2,2) (count 1, for the mine at (1,1)) then adds
    the sentence [({(1,2), (2,1)}, 1)] although neither cell is a mine. *)
Remark known_mines_are_counted_again :
  nearby_mines crowded_game (0, 0) = 3
  ∧ nearby_mines crowded_game (2, 2) = 1
  ∧ ∃ ai, run_calls 1 [((0, 0), 3); ((2, 2), 1)] (init 3 3) = Ret ai
          ∧ mines ai = crowded_layout
          ∧ knowledge ai = [mkSentence {[ (1, 2); (2, 1) ]} 1]
          ∧ ¬ consistent crowded_layout (knowledge ai).
Proof.
  split; [done|]. split; [done|]. eexists. split; [by vm_compute|].
  split_and!; [by vm_compute | by vm_compute |].
  intros Hcons. specialize (Hcons (mkSentence {[ (1, 2); (2, 1) ]} 1)).
  assert (count (mkSentence {[ (1, 2); (2, 1) ]} 1) ≠
          len (cells (mkSentence {[ (1, 2); (2, 1) ]} 1) ∩ crowded_layout))
    as Hne by compute_done.
  apply Hne, Hcons. compute_done.
Qed.

(** * Further properties of the code *)

(** ** The neighbours of a cell *)

(** A cell is the sum of [cell] and one of the eight [directions] exactly
    when it is next to [cell], in a row and a column at most one away,
    and is not [cell] itself. *)
Lemma directions_adjacent (cell c : Z * Z) :
  (∃ d, d ∈ directions ∧ c = (cell.1 + d.1, cell.2 + d.2))
  ↔ c ≠ cell
    ∧ (cell.1 - 1 ≤ c.1 ≤ cell.1 + 1) ∧ (cell.2 - 1 ≤ c.2 ≤ cell.2 + 1).
Proof.
  destruct cell as [y x], c as [i j]. cbn. split.
  - intros (d & Hd & Heq). unfold directions in Hd.
    repeat (apply elem_of_cons in Hd as [-> | Hd];
            [cbn in Heq; injection Heq as -> ->;
             split_and!; [intros [=]; lia | lia..] |]).
    by apply elem_of_nil in Hd.
  - intros (Hne & Hi & Hj).
    exists (i - y, j - x). split; [|cbn; f_equal; lia].
    assert (i - y = -1 ∨ i - y = 0 ∨ i - y = 1) as Hi' by lia.
    assert (j - x = -1 ∨ j - x = 0 ∨ j - x = 1) as Hj' by lia.
    assert (¬ (i - y = 0 ∧ j - x = 0)) as Hne'.
    { intros [??]. apply Hne. f_equal; lia. }
    destruct Hi' as [Hi' | [Hi' | Hi']], Hj' as [Hj' | [Hj' | Hj']];
      rewrite Hi', Hj'; first [ by destruct Hne' | compute_done ].
Qed.

Lemma find_unexplored_neighbors_fold ai cell (c : Z * Z) :
  ∀ (l : list (Z * Z)) (acc : gset Cell),
    c ∈ foldl (λ neighbors d,
                 let neighbor_cell := (cell.1 + d.1, cell.2 + d.2) in
                 if decide (in_bounds ai neighbor_cell
                            ∧ neighbor_cell ∉ moves_made ai ∪ safes ai ∪ mines ai)
                 then neighbors ∪ {[ neighbor_cell ]}
                 else neighbors) acc l
    ↔ c ∈ acc
      ∨ (in_bounds ai c ∧ (c ∉ moves_made ai ∪ safes ai ∪ mines ai)
         ∧ ∃ d, d ∈ l ∧ c = (cell.1 + d.1, cell.2 + d.2)).
Proof.
  induction l as [|d l IH]; intros acc; cbn [foldl].
  - split; [auto|]. intros [?|(_ & _ & d & Hd & _)]; [done|].
    by apply elem_of_nil in Hd.
  - rewrite IH. cbv zeta. split.
    + intros [Hc | (? & ? & d' & ? & ?)].
      * case_decide as Hd; [|auto].
        apply elem_of_union in Hc as [Hc | ->%elem_of_singleton]; [auto|].
        right. destruct Hd. split_and!; [done..|]. exists d. split; [left|done].
      * right. split_and!; [done..|]. exists d'. split; [by right|done].
    + intros [Hc | (Hb & Hn & d' & [-> | Hd']%elem_of_cons & Heq)].
      * left. case_decide; set_solver.
      * left. rewrite decide_True by (by rewrite <- Heq).
        apply elem_of_union. right. by apply elem_of_singleton.
      * right. split_and!; [done..|]. by exists d'.
Qed.

Lemma find_unexplored_neighbors_size ai cell :
  ∀ (l : list (Z * Z)) (acc : gset Cell),
    len (foldl (λ neighbors d,
                 let neighbor_cell := (cell.1 + d.1, cell.2 + d.2) in
                 if decide (in_bounds ai neighbor_cell
                            ∧ neighbor_cell ∉ moves_made ai ∪ safes ai ∪ mines ai)
                 then neighbors ∪ {[ neighbor_cell ]}
                 else neighbors) acc l)
    ≤ len acc + Z.of_nat (length l).
Proof.
  induction l as [|d l IH]; intros acc; cbn [foldl length].
  - lia.
  - etrans; [apply IH|]. cbv zeta. case_decide; [|lia].
    assert (len (acc ∪ {[(cell.1 + d.1, cell.2 + d.2)]}) ≤ len acc + 1); [|lia].
    destruct (decide ((cell.1 + d.1, cell.2 + d.2) ∈ acc)).
    + replace (acc ∪ {[(cell.1 + d.1, cell.2 + d.2)]}) with acc by set_solver.
      lia.
    + rewrite len_union by set_solver. rewrite len_singleton. lia.
Qed.

(** X1: [find_unexplored_neighbors] returns exactly the cells of the grid
    that are next to [cell] (at most one row and one column away, [cell]
    itself left out) and are in none of [moves_made], [safes] and
    [mines]; there are at most eight of them. *)
Theorem find_unexplored_neighbors_spec (ai : MinesweeperAI) (cell : Cell) :
  (∀ c, c ∈ find_unexplored_neighbors ai cell ↔
        in_bounds ai c
        ∧ c ≠ cell
        ∧ (cell.1 - 1 ≤ c.1 ≤ cell.1 + 1) ∧ (cell.2 - 1 ≤ c.2 ≤ cell.2 + 1)
        ∧ (c ∉ moves_made ai) ∧ (c ∉ safes ai) ∧ (c ∉ mines ai))
  ∧ len (find_unexplored_neighbors ai cell) ≤ 8.
Proof.
  split.
  - intros c. unfold find_unexplored_neighbors.
    rewrite find_unexplored_neighbors_fold, directions_adjacent.
    set_solver.
  - unfold find_unexplored_neighbors.
    etrans; [apply find_unexplored_neighbors_size|].
    rewrite len_empty. cbn. lia.
Qed.

(** ** Marking the cells of a collection *)

Lemma mark_safe_strip_safe_any x X s :
  Sentence.mark_safe x (strip_safe X s) = strip_safe ({[ x ]} ∪ X) s.
Proof.
  destruct (decide (x ∈ X)) as [Hin|Hout]; [|by apply mark_safe_strip_safe].
  replace ({[ x ]} ∪ X) with X by set_solver.
  unfold Sentence.mark_safe. rewrite decide_False; [done|]. cbn. set_solver.
Qed.

Lemma mark_mine_strip_mine_any x X s :
  Sentence.mark_mine x (strip_mine X s) = strip_mine ({[ x ]} ∪ X) s.
Proof.
  destruct (decide (x ∈ X)) as [Hin|Hout]; [|by apply mark_mine_strip_mine].
  replace ({[ x ]} ∪ X) with X by set_solver.
  unfold Sentence.mark_mine. rewrite decide_False; [done|]. cbn. set_solver.
Qed.

Lemma foldr_mark_safe_eq (l : list Cell) (ai : MinesweeperAI) :
  foldr mark_safe ai l = mark_safes (list_to_set l) ai.
Proof.
  induction l as [|x l IH]; cbn [foldr list_to_set].
  - rewrite mark_safes_eq. destruct ai as [h w mv mi sf kn]; cbn.
    f_equal; [set_solver|]. rewrite <- (list_fmap_id kn) at 1.
    apply list_fmap_ext. intros. symmetry. apply strip_safe_empty.
  - rewrite IH, !mark_safes_eq. unfold mark_safe; cbn. f_equal; [set_solver|].
    rewrite <- list_fmap_compose. apply list_fmap_ext. intros _ s _. cbn.
    apply mark_safe_strip_safe_any.
Qed.

Lemma foldr_mark_mine_eq (l : list Cell) (ai : MinesweeperAI) :
  foldr mark_mine ai l = mark_mines (list_to_set l) ai.
Proof.
  induction l as [|x l IH]; cbn [foldr list_to_set].
  - rewrite mark_mines_eq. destruct ai as [h w mv mi sf kn]; cbn.
    f_equal; [set_solver|]. rewrite <- (list_fmap_id kn) at 1.
    apply list_fmap_ext. intros. symmetry. apply strip_mine_empty.
  - rewrite IH, !mark_mines_eq. unfold mark_mine; cbn. f_equal; [set_solver|].
    rewrite <- list_fmap_compose. apply list_fmap_ext. intros _ s _. cbn.
    apply mark_mine_strip_mine_any.
Qed.

(** X2: the state after [for cell in cells: self.mark_safe(cell)] does
    not depend on the order in which the cells are visited, nor on
    repetitions: visiting the cells of any list ends in the state of the
    loop over the set of its elements.  The same holds for [mark_mine]. *)
Theorem marking_order_irrelevant (l : list Cell) (ai : MinesweeperAI) :
  foldr mark_safe ai l = mark_safes (list_to_set l) ai
  ∧ foldr mark_mine ai l = mark_mines (list_to_set l) ai.
Proof. split; [apply foldr_mark_safe_eq | apply foldr_mark_mine_eq]. Qed.

(** ** The removal of resolved sentences *)

(** X3: the loop of lines 226-233, run on a copy of the knowledge list,
    never raises in [list.remove]; it leaves the sentences whose count is
    not 0, in their order (all copies of a sentence with count 0 go), and
    collects the cells of the removed sentences that are not known safe. *)
Theorem collect_safes_removes_resolved
    (safes0 : gset Cell) (kn : list Sentence) :
  ∃ to_be_marked,
    collect_safes safes0 kn ∅ kn
    = Ret (to_be_marked, filter (λ s, count s ≠ 0) kn)
    ∧ ∀ c, c ∈ to_be_marked ↔
           (c ∉ safes0) ∧ ∃ s, s ∈ kn ∧ count s = 0 ∧ c ∈ cells s.
Proof.
  exists (zero_cells kn ∖ safes0). split; [apply collect_safes_eq|].
  intros c. rewrite elem_of_difference, elem_of_zero_cells. tauto.
Qed.

(** ** What [add_knowledge] leaves alone *)

Lemma pass_state_frame ai :
  height (pass_state ai) = height ai ∧ width (pass_state ai) = width ai
  ∧ moves_made (pass_state ai) = moves_made ai.
Proof. done. Qed.

Lemma ingest_frame cell cnt ai :
  height (ingest cell cnt ai) = height ai
  ∧ width (ingest cell cnt ai) = width ai
  ∧ moves_made (ingest cell cnt ai) = {[ cell ]} ∪ moves_made ai.
Proof.
  unfold ingest. cbv zeta.
  generalize (find_unexplored_neighbors (revealed cell ai) cell). intros U.
  repeat case_decide; rewrite ?mark_safes_eq, ?mark_mines_eq; done.
Qed.

(** X4: a call of [add_knowledge] that returns leaves the size of the
    grid as it was and adds exactly its cell to [moves_made]; the cell is
    in [safes] afterwards, and if every move made was in [safes] before
    the call, this is so after it. *)
Theorem add_knowledge_frame
    (fuel : nat) (cell : Cell) (cnt : Z) (ai ai' : MinesweeperAI) :
  add_knowledge fuel cell cnt ai = Ret ai' →
  height ai' = height ai
  ∧ width ai' = width ai
  ∧ moves_made ai' = {[ cell ]} ∪ moves_made ai
  ∧ cell ∈ safes ai'
  ∧ (moves_made ai ⊆ safes ai → moves_made ai' ⊆ safes ai').
Proof.
  intros Hrun.
  pose proof (add_knowledge_grows _ _ _ _ _ Hrun) as (Hs & _ & Hc & _).
  pose proof (ingest_frame cell cnt ai) as (Hh & Hw & Hm).
  revert Hrun. unfold add_knowledge. intros Hrun.
  assert (height ai' = height ai ∧ width ai' = width ai
          ∧ moves_made ai' = {[ cell ]} ∪ moves_made ai) as (? & ? & Hmv).
  { revert Hrun. apply (propagate_invariant (λ st,
      height st = height ai ∧ width st = width ai
      ∧ moves_made st = {[ cell ]} ∪ moves_made ai)); [|done].
    intros st (? & ? & ?). by rewrite !(proj1 (pass_state_frame st)). }
  split_and!; [done..|]. rewrite Hmv. set_solver.
Qed.

Lemma add_knowledge_frame_witness :
  moves_made scenario_state_4 = {[ (2, 1) ]} ∪ {[ (0, 0); (1, 1); (1, 2) ]}
  ∧ moves_made scenario_state_4 ⊆ safes scenario_state_4.
Proof.
  pose (ai := mkAI 3 3 {[ (0, 0); (1, 1); (1, 2) ]} ∅
                {[ (0, 0); (0, 1); (1, 0); (1, 1); (1, 2); (2, 0) ]}
                [mkSentence {[ (0, 2); (2, 1); (2, 2) ]} 1;
                 mkSentence {[ (0, 2); (2, 1); (2, 2) ]} 1]).
  assert (add_knowledge 2 (2, 1) 1 ai = Ret scenario_state_4) as Hrun
    by (by vm_compute).
  destruct (add_knowledge_frame 2 (2, 1) 1 ai scenario_state_4 Hrun)
    as (_ & _ & Hm & _ & Hsub).
  split; [exact Hm|]. apply Hsub. compute_done.
Defined.

(** ** The count of the oracle *)

(** The cells visited by the two nested loops of [nearby_mines]. *)
Lemma window_adjacent (cell c : Z * Z) :
  c ∈ ([cell.1 - 1; cell.1; cell.1 + 1] ≫= λ i,
         pair i <$> [cell.2 - 1; cell.2; cell.2 + 1])
  ↔ (cell.1 - 1 ≤ c.1 ≤ cell.1 + 1) ∧ (cell.2 - 1 ≤ c.2 ≤ cell.2 + 1).
Proof.
  destruct cell as [y x], c as [i j]. cbn. split.
  - intros Hin.
    repeat (apply elem_of_cons in Hin as [[= -> ->] | Hin]; [lia|]).
    by apply elem_of_nil in Hin.
  - intros [Hi Hj].
    assert (i = y - 1 ∨ i = y ∨ i = y + 1) as Hi' by lia.
    assert (j = x - 1 ∨ j = x ∨ j = x + 1) as Hj' by lia.
    destruct Hi' as [-> | [-> | ->]], Hj' as [-> | [-> | ->]];
      repeat first [ by left | right ].
Qed.

Lemma window_NoDup (cell : Z * Z) :
  NoDup ([cell.1 - 1; cell.1; cell.1 + 1] ≫= λ i,
           pair i <$> [cell.2 - 1; cell.2; cell.2 + 1]).
Proof.
  destruct cell as [y x]. cbn.
  repeat (apply NoDup_cons; split;
          [intros Hin;
           repeat (apply elem_of_cons in Hin as [[=] | Hin]; [lia|]);
           by apply elem_of_nil in Hin |]).
  apply NoDup_nil_2.
Qed.

Lemma nearby_mines_fold (g : Minesweeper) (cell : Z * Z) :
  ∀ (l : list (Z * Z)) (acc : Z),
    foldl (λ count ij,
             if decide (ij = cell) then count
             else if decide ((0 ≤ ij.1 < game_height g)
                             ∧ (0 ≤ ij.2 < game_width g))
                  then (if board_at g ij.1 ij.2 then count + 1 else count)
                  else count) acc l
    = acc + Z.of_nat (length (filter (λ ij,
              ij ≠ cell
              ∧ ((0 ≤ ij.1 < game_height g) ∧ (0 ≤ ij.2 < game_width g))
              ∧ board_at g ij.1 ij.2 = true) l)).
Proof.
  induction l as [|ij l IH]; intros acc; cbn [foldl].
  - cbn. lia.
  - rewrite IH, filter_cons.
    destruct (decide (ij = cell)) as [Heq|Hne].
    + rewrite decide_False by tauto. done.
    + destruct (decide ((0 ≤ ij.1 < game_height g)
                        ∧ (0 ≤ ij.2 < game_width g))) as [Hb|Hb].
      * destruct (board_at g ij.1 ij.2) eqn:Hm.
        -- rewrite decide_True by done. cbn [length]. lia.
        -- rewrite decide_False; [done|]. intros (_ & _ & ?). done.
      * rewrite decide_False by tauto. done.
Qed.

Lemma elem_of_grid_neighbors (h w : Z) (cell c : Z * Z) :
  c ∈ grid_neighbors h w cell ↔
  ((0 ≤ c.1 < h) ∧ (0 ≤ c.2 < w))
  ∧ c ≠ cell
  ∧ (cell.1 - 1 ≤ c.1 ≤ cell.1 + 1) ∧ (cell.2 - 1 ≤ c.2 ≤ cell.2 + 1).
Proof.
  unfold grid_neighbors, find_unexplored_neighbors.
  rewrite find_unexplored_neighbors_fold, directions_adjacent.
  unfold in_bounds. cbn. set_solver.
Qed.

Lemma len_list_to_set (l : list Cell) :
  NoDup l → len (list_to_set l) = Z.of_nat (length l).
Proof. intros Hl. unfold len. f_equal. by apply size_list_to_set. Qed.

Lemma nearby_mines_layout (g : Minesweeper) (M : gset Cell) (cell : Cell) :
  layout_of g M →
  nearby_mines g cell
  = len (grid_neighbors (game_height g) (game_width g) cell ∩ M).
Proof.
  intros Hlay. unfold nearby_mines. rewrite nearby_mines_fold, Z.add_0_l.
  rewrite <- len_list_to_set by apply NoDup_filter, window_NoDup.
  f_equal. apply set_eq. intros c.
  rewrite elem_of_list_to_set, list_elem_of_filter, window_adjacent.
  rewrite elem_of_intersection, elem_of_grid_neighbors.
  destruct c as [i j]. cbn. split.
  - intros ((? & [??] & Hm) & ? & ?). split; [tauto|]. by apply Hlay.
  - intros (([??] & ? & ? & ?) & Hm). split; [|done].
    split; [done|]. split; [done|]. by apply Hlay.
Qed.

(** X5: when the board of a game has its mines exactly at the cells of
    [M], [nearby_mines(cell)] is the number of cells of [M] among the
    cells of the grid next to [cell]; the cell itself is not counted. *)
Theorem nearby_mines_counts_neighbors
    (g : Minesweeper) (M : gset Cell) (cell : Cell) :
  layout_of g M →
  nearby_mines g cell
  = len (grid_neighbors (game_height g) (game_width g) cell ∩ M).
Proof. apply nearby_mines_layout. Qed.

Lemma crowded_layout_of : layout_of crowded_game crowded_layout.
Proof.
  intros i j Hi Hj. cbn in Hi, Hj.
  assert (i = 0 ∨ i = 1 ∨ i = 2) as Hi' by lia.
  assert (j = 0 ∨ j = 1 ∨ j = 2) as Hj' by lia.
  destruct Hi' as [-> | [-> | ->]], Hj' as [-> | [-> | ->]];
    (split; [intros H; first [ discriminate H | compute_done ]
            | intros H; first [ reflexivity | by vm_compute in H ]]).
Defined.

Lemma nearby_mines_counts_neighbors_witness :
  nearby_mines crowded_game (2, 2)
  = len (grid_neighbors 3 3 (2, 2) ∩ crowded_layout)
  ∧ nearby_mines crowded_game (0, 0) = 3.
Proof.
  split; [|done].
  apply (nearby_mines_counts_neighbors crowded_game crowded_layout (2, 2)).
  exact crowded_layout_of.
Defined.

(** X6: whatever the board, [nearby_mines] is between 0 and 8. *)
Theorem nearby_mines_bounds (g : Minesweeper) (cell : Cell) :
  0 ≤ nearby_mines g cell ≤ 8.
Proof.
  unfold nearby_mines. rewrite nearby_mines_fold, Z.add_0_l. split; [lia|].
  rewrite <- len_list_to_set by apply NoDup_filter, window_NoDup.
  transitivity (len (grid_neighbors (game_height g) (game_width g) cell)).
  - apply len_subseteq. intros c.
    rewrite elem_of_list_to_set, list_elem_of_filter, window_adjacent,
      elem_of_grid_neighbors. tauto.
  - unfold grid_neighbors, find_unexplored_neighbors.
    etrans; [apply find_unexplored_neighbors_size|].
    rewrite len_empty. cbn. lia.
Qed.

(** ** Sound states *)

Lemma sound_pass_state M ai : sound M ai → sound M (pass_state ai).
Proof.
  intros (Hcons & Hm & Hs & Hmv). split_and!.
  - by apply consistent_pass_state.
  - cbn. pose proof (consistent_full_cells M _ Hcons). unfold pass_mines.
    set_solver.
  - cbn. pose proof (consistent_zero_cells M _ (consistent_pass_kn1 M ai Hcons)).
    unfold pass_safes. set_solver.
  - done.
Qed.

(** X7: the loop of [add_knowledge] draws only true conclusions from
    true knowledge: if every sentence is true of the layout [M], every
    known mine is a mine of [M] and no known safe cell or move made is,
    the same holds of the state the loop returns. *)
Theorem propagate_sound
    (M : gset Cell) (fuel : nat) (ai ai' : MinesweeperAI) :
  sound M ai → propagate fuel ai = Ret ai' → sound M ai'.
Proof.
  apply (propagate_invariant (sound M)). apply sound_pass_state.
Qed.

Lemma propagate_sound_witness :
  sound {[ (2, 2) ]} scenario_loop_entry_3
  ∧ ∃ ai', propagate 3 scenario_loop_entry_3 = Ret ai' ∧ sound {[ (2, 2) ]} ai'.
Proof.
  assert (sound {[ (2, 2) ]} scenario_loop_entry_3) as Hsound.
  { split_and!; [|compute_done..].
    intros s [->|Hs]%elem_of_cons; [by vm_compute|].
    apply list_elem_of_singleton in Hs as ->. by vm_compute. }
  split; [exact Hsound|]. eexists. split; [by vm_compute|].
  apply (propagate_sound {[ (2, 2) ]} 3 scenario_loop_entry_3);
    [exact Hsound | by vm_compute].
Defined.

(** *** Observations *)

Lemma elem_of_unexplored ai cell (c : Z * Z) :
  c ∈ find_unexplored_neighbors ai cell ↔
  c ∈ grid_neighbors (height ai) (width ai) cell
  ∧ (c ∉ moves_made ai ∪ safes ai ∪ mines ai).
Proof.
  rewrite elem_of_grid_neighbors. unfold find_unexplored_neighbors.
  rewrite find_unexplored_neighbors_fold, directions_adjacent.
  unfold in_bounds. set_solver.
Qed.

Lemma mark_safe_singleton cell ai :
  mark_safe cell ai = mark_safes {[ cell ]} ai.
Proof.
  pose proof (foldr_mark_safe_eq [cell] ai) as H. cbn in H.
  rewrite H. f_equal. set_solver.
Qed.

Lemma sound_mark_safes M X ai :
  X ## M → sound M ai → sound M (mark_safes X ai).
Proof.
  intros HX (Hcons & Hm & Hs & Hmv). rewrite mark_safes_eq.
  split_and!; cbn; [|done|set_solver|done].
  intros s (s0 & -> & Hs0)%list_elem_of_fmap.
  apply consistent_strip_safe; [done | by apply Hcons].
Qed.

Lemma sound_mark_mines M X ai :
  X ⊆ M → sound M ai → sound M (mark_mines X ai).
Proof.
  intros HX (Hcons & Hm & Hs & Hmv). rewrite mark_mines_eq.
  split_and!; cbn; [|set_solver|done..].
  intros s (s0 & -> & Hs0)%list_elem_of_fmap.
  apply consistent_strip_mine; [done | by apply Hcons].
Qed.

Lemma sound_revealed M cell ai :
  cell ∉ M → sound M ai → sound M (revealed cell ai).
Proof.
  intros Hcell (Hcons & Hm & Hs & Hmv). unfold revealed.
  rewrite mark_safe_singleton. apply sound_mark_safes; [set_solver|].
  split_and!; cbn; [done..|set_solver].
Qed.

(** The mines next to [cell] are those among its unexplored neighbours
    and the known ones. *)
Lemma neighbor_mines_split M cell ai :
  sound M ai → cell ∉ M →
  len (grid_neighbors (height ai) (width ai) cell ∩ M)
  = len (find_unexplored_neighbors (revealed cell ai) cell ∩ M)
    + len (grid_neighbors (height ai) (width ai) cell ∩ mines ai).
Proof.
  intros (Hcons & Hm & Hs & Hmv) Hcell.
  rewrite <- len_union.
  2:{ intros c [Hu _]%elem_of_intersection [_ Hk]%elem_of_intersection.
      apply elem_of_unexplored in Hu as [_ Hu]. cbn in Hu. set_solver. }
  f_equal. apply set_eq. intros c.
  rewrite elem_of_union, !elem_of_intersection, elem_of_unexplored.
  cbn [height width revealed mark_safe record_move moves_made safes mines].
  rewrite elem_of_grid_neighbors.
  destruct (decide (c ∈ mines ai)); set_solver.
Qed.

Lemma sound_ingest M cell cnt ai :
  sound M ai → cell ∉ M →
  cnt = len (grid_neighbors (height ai) (width ai) cell ∩ M) →
  grid_neighbors (height ai) (width ai) cell ## mines ai →
  sound M (ingest cell cnt ai).
Proof.
  intros Hsound Hcell Hcnt Hnone.
  pose proof (neighbor_mines_split M cell ai Hsound Hcell) as Hsplit.
  replace (grid_neighbors (height ai) (width ai) cell ∩ mines ai)
    with (∅ : gset Cell) in Hsplit by set_solver.
  rewrite len_empty, Z.add_0_r, <- Hcnt in Hsplit.
  apply (sound_revealed M cell) in Hsound; [|done].
  unfold ingest. cbv zeta.
  revert Hsplit. generalize (find_unexplored_neighbors (revealed cell ai) cell).
  intros U HU. repeat case_decide.
  - apply sound_mark_safes; [|done].
    assert (U ∩ M = ∅) by (apply len_zero_iff; lia). set_solver.
  - apply sound_mark_mines; [|done].
    assert (U ∩ M = U) as Heq;
      [apply len_subseteq_eq; [set_solver | lia] | set_solver].
  - destruct Hsound as (Hcons & ? & ? & ?). split_and!; [|done..].
    intros s [Hs| ->%list_elem_of_singleton]%elem_of_app; [by apply Hcons|].
    done.
Qed.

(** X8: a truthful observation next to no known mine is processed in
    finitely many passes and yields only true facts.  If the solver
    state is sound for the layout of the game and keeps the invariant of
    the knowledge list, the revealed cell is not a mine, the count is the
    one [nearby_mines] gives and no neighbour of the cell is a known
    mine, then [add_knowledge] returns, and the state it returns is
    sound again. *)
Theorem add_knowledge_truthful
    (g : Minesweeper) (M : gset Cell) (cell : Cell) (ai : MinesweeperAI) :
  layout_of g M →
  game_height g = height ai → game_width g = width ai →
  sound M ai → knowledge_open ai →
  cell ∉ M →
  grid_neighbors (height ai) (width ai) cell ## mines ai →
  ∃ fuel ai',
    add_knowledge fuel cell (nearby_mines g cell) ai = Ret ai'
    ∧ sound M ai' ∧ knowledge_open ai'.
Proof.
  intros Hlay Hh Hw Hsound Hopen Hcell Hnone.
  pose proof (nearby_mines_layout g M cell Hlay) as Hcnt.
  rewrite Hh, Hw in Hcnt.
  pose proof (sound_ingest M cell _ ai Hsound Hcell Hcnt Hnone) as Hsound'.
  pose proof (knowledge_open_ingest cell (nearby_mines g cell) ai Hopen)
    as Hopen'.
  set (st := ingest cell (nearby_mines g cell) ai) in *.
  destruct (propagate_terminates_measure (all_cells (knowledge st)) M
              (unmarked (all_cells (knowledge st)) st)
              (unseen (all_cells (knowledge st)) st) st)
    as (fuel & ai' & Hrun);
    [done | done | by destruct Hsound' | by apply knowledge_open_cells_not_safe
    | done |].
  exists fuel, ai'. split_and!; [done | |].
  - exact (propagate_invariant (sound M) (sound_pass_state M)
             fuel st ai' Hsound' Hrun).
  - exact (propagate_invariant knowledge_open knowledge_open_pass_state
             fuel st ai' Hopen' Hrun).
Qed.

Lemma add_knowledge_truthful_witness :
  ∃ fuel ai',
    add_knowledge fuel (0, 0) (nearby_mines crowded_game (0, 0)) (init 3 3)
    = Ret ai'
    ∧ sound crowded_layout ai'.
Proof.
  destruct (add_knowledge_truthful crowded_game crowded_layout (0, 0) (init 3 3))
    as (fuel & ai' & Hrun & Hsound & _).
  - exact crowded_layout_of.
  - reflexivity.
  - reflexivity.
  - split_and!; [|compute_done..].
    intros s Hs. by apply elem_of_nil in Hs.
  - intros s c Hs. by apply elem_of_nil in Hs.
  - compute_done.
  - compute_done.
  - by exists fuel, ai'.
Defined.

(** X9: the count stored with a new sentence is the count of the oracle,
    not lowered by the known mines next to the cell.  In a sound state
    and for a cell that is no mine, the number of mines next to the cell
    is the number of mines among its unexplored neighbours plus the
    number of its neighbours that are known mines; so the sentence that
    [add_knowledge] appends for a truthful count is true of the layout
    exactly when no neighbour of the cell is a known mine. *)
Theorem appended_sentence_overcounts
    (M : gset Cell) (cell : Cell) (cnt : Z) (ai : MinesweeperAI) :
  sound M ai → cell ∉ M →
  cnt = len (grid_neighbors (height ai) (width ai) cell ∩ M) →
  let unexplored := find_unexplored_neighbors (revealed cell ai) cell in
  cnt = len (unexplored ∩ M)
        + len (grid_neighbors (height ai) (width ai) cell ∩ mines ai)
  ∧ (cnt = len (unexplored ∩ M) ↔
     grid_neighbors (height ai) (width ai) cell ## mines ai).
Proof.
  intros Hsound Hcell -> unexplored.
  pose proof (neighbor_mines_split M cell ai Hsound Hcell) as Hsplit.
  fold unexplored in Hsplit. split; [done|].
  rewrite Hsplit. split.
  - intros Heq.
    assert (grid_neighbors (height ai) (width ai) cell ∩ mines ai = ∅)
      by (apply len_zero_iff; lia). set_solver.
  - intros Hdisj.
    replace (grid_neighbors (height ai) (width ai) cell ∩ mines ai)
      with (∅ : gset Cell) by set_solver.
    rewrite len_empty. lia.
Qed.

Lemma appended_sentence_overcounts_witness :
  let ai := mkAI 3 3 {[ (0, 0) ]} crowded_layout {[ (0, 0) ]} [] in
  let unexplored := find_unexplored_neighbors (revealed (2, 2) ai) (2, 2) in
  1 = len (unexplored ∩ crowded_layout) + 1.
Proof.
  intros ai unexplored.
  destruct (appended_sentence_overcounts crowded_layout (2, 2) 1 ai)
    as [Heq _].
  - split_and!; [|compute_done..].
    intros s Hs. by apply elem_of_nil in Hs.
  - compute_done.
  - by vm_compute.
  - replace (len (grid_neighbors (height ai) (width ai) (2, 2)
                  ∩ mines ai)) with 1 in Heq by (by vm_compute).
    exact Heq.
Defined.

(** ** The state the loop returns *)

Lemma propagate_last_pass_invariant (P : MinesweeperAI → Prop) :
  (∀ st, P st → P (pass_state st)) →
  ∀ fuel ai ai', P ai → propagate fuel ai = Ret ai' →
    ∃ last, P last ∧ ai' = pass_state last
            ∧ loop_again (pass_rep last) = false.
Proof.
  intros Hstep. induction fuel as [|fuel IH]; intros ai ai' HP; [done|].
  rewrite propagate_unfold. destruct (loop_again (pass_rep ai)) eqn:Hl.
  - apply IH. by apply Hstep.
  - intros [= <-]. by exists ai.
Qed.

(** What is left when a pass on a state with the invariant finds nothing
    new. *)
Lemma quiet_pass_knowledge last :
  knowledge_open last → loop_again (pass_rep last) = false →
  knowledge (pass_state last) = filter (λ s, count s ≠ 0) (knowledge last)
  ∧ mines (pass_state last) = mines last
  ∧ safes (pass_state last) = safes last
  ∧ infer_subsets (knowledge (pass_state last)) = []
  ∧ ∀ s, s ∈ knowledge (pass_state last) →
         count s ≠ 0 ∧ count s ≠ len (cells s).
Proof.
  intros Hopen (Hm & Hs & Hnk)%loop_again_false. cbn in Hm, Hs, Hnk.
  cbn [knowledge mines safes pass_state].
  rewrite Hnk, app_nil_r, Hm, Hs, !(left_id_L ∅ (∪)).
  pose proof (pass_kn2_nothing_marked last Hm Hs) as Hkn. rewrite Hkn in *.
  split_and!; [done..|].
  intros s [Hnz Hin]%list_elem_of_filter. split; [done|]. intros Htight.
  destruct (decide (cells s = ∅)) as [Hempty|Hne].
  { rewrite Hempty, len_empty in Htight. done. }
  apply set_choose_L in Hne as [c Hc].
  destruct (Hopen s c Hin Hc) as (_ & _ & Hnm & _).
  assert (c ∈ pass_mines last) as Hcm; [|set_solver].
  apply elem_of_pass_mines. split; [done|]. by exists s.
Qed.

(** X10: the knowledge base that [add_knowledge] returns is saturated.
    Called in a state with the invariant of the knowledge list, it leaves
    no sentence with count 0 and none whose count is the number of its
    cells; the difference of any two of its sentences, one's cells a
    proper subset of the other's, is in the list already; and one more
    run of the loop ends after a single pass in the same state. *)
Theorem add_knowledge_saturated
    (fuel : nat) (cell : Cell) (cnt : Z) (ai ai' : MinesweeperAI) :
  knowledge_open ai →
  add_knowledge fuel cell cnt ai = Ret ai' →
  (∀ s, s ∈ knowledge ai' → count s ≠ 0 ∧ count s ≠ len (cells s))
  ∧ (∀ a b, a ∈ knowledge ai' → b ∈ knowledge ai' →
            cells a ≠ cells b → cells a ⊆ cells b →
            difference a b ∈ knowledge ai')
  ∧ propagate 1 ai' = Ret ai'.
Proof.
  intros Hopen Hrun. unfold add_knowledge in Hrun.
  apply (propagate_last_pass_invariant knowledge_open
           knowledge_open_pass_state) in Hrun
    as (last & Hlast & -> & Hquiet); [|by apply knowledge_open_ingest].
  destruct (quiet_pass_knowledge last Hlast Hquiet)
    as (Hkn & Hm & Hs & Hnk & Hall).
  set (st := pass_state last) in *. clearbody st.
  split_and!; [done | |].
  - intros a b Ha Hb Hne Hsub.
    destruct (infer_subsets_complete (knowledge st) a b Ha Hb Hne Hsub)
      as [?|Hin]; [done|]. rewrite Hnk in Hin. by apply elem_of_nil in Hin.
  - assert (pass_mines st = ∅) as Hm'.
    { apply set_eq. intros c. split; [|set_solver].
      intros (_ & s & Hin & Htight & _)%elem_of_pass_mines.
      by destruct (Hall s Hin) as [_ ?]. }
    assert (pass_safes st = ∅) as Hs'.
    { apply set_eq. intros c. split; [|set_solver].
      intros (_ & s & Hin & Hz & _)%elem_of_pass_safes.
      rewrite pass_kn1_nothing_marked in Hin by done.
      by destruct (Hall s Hin) as [? _]. }
    assert (pass_kn2 st = knowledge st) as Hkn'.
    { rewrite pass_kn2_nothing_marked by done. apply filter_all.
      intros s Hin. by destruct (Hall s Hin) as [? _]. }
    rewrite propagate_unfold.
    assert (loop_again (pass_rep st) = false) as ->.
    { apply loop_again_false. unfold pass_rep.
      cbn [mines_to_be_marked safes_to_be_marked new_knowledge].
      by rewrite Hm', Hs', Hkn', Hnk. }
    f_equal. unfold pass_state at 1.
    rewrite Hm', Hs', Hkn', Hnk, app_nil_r, !(left_id_L ∅ (∪)).
    by destruct st.
Qed.

Lemma add_knowledge_saturated_witness :
  ∃ ai',
    add_knowledge 3 (1, 2) 1 scenario_state_2 = Ret ai'
    ∧ propagate 1 ai' = Ret ai'.
Proof.
  eexists. split; [by vm_compute|].
  refine (proj2 (proj2 (add_knowledge_saturated 3 (1, 2) 1 scenario_state_2
                          _ _ _))); [|by vm_compute].
  intros s' c ->%list_elem_of_singleton Hc. cbn in Hc.
  unfold in_bounds.
  cbn [height width safes mines moves_made scenario_state_2].
  set_unfold. destruct Hc as [[[[-> | ->] | ->] | ->] | ->]; cbn;
    split_and!; try lia; naive_solver.
Defined.

(** ** The random move *)

(** X11: [make_random_move] raises [ValueError] (from [randrange]) when
    the grid has no cell; otherwise the cell it returns is the first cell
    drawn that is neither a move made nor a known mine, and the state is
    left as it was; when every cell drawn is a move made or a known mine,
    as it must be once these cover the grid, the loop does not end. *)
Theorem make_random_move_spec (samples : list Cell) (ai : MinesweeperAI) :
  (height ai ≤ 0 ∨ width ai ≤ 0 →
     make_random_move samples ai = Raise ValueError)
  ∧ (∀ c ai', make_random_move samples ai = Ret (c, ai') →
       ai' = ai
       ∧ (c ∉ moves_made ai) ∧ (c ∉ mines ai)
       ∧ ∃ skipped rest, samples = skipped ++ c :: rest
                         ∧ ∀ x, x ∈ skipped → x ∈ moves_made ai ∪ mines ai)
  ∧ (0 < height ai → 0 < width ai →
     (∀ c, in_bounds ai c → c ∈ moves_made ai ∪ mines ai) →
     Forall (in_bounds ai) samples →
     make_random_move samples ai = OutOfFuel).
Proof.
  split_and!.
  - intros Hempty. destruct samples; cbn; by rewrite decide_True.
  - induction samples as [|x samples IH]; intros c ai'; cbn.
    + by case_decide.
    + case_decide; [done|]. case_decide as Hx.
      * intros [= <- <-]. split_and!; [done | set_solver.. |].
        exists [], samples. split; [done|]. intros y Hy.
        by apply elem_of_nil in Hy.
      * intros (-> & ? & ? & skipped & rest & -> & Hsk)%IH.
        split_and!; [done..|]. exists (x :: skipped), rest. split; [done|].
        intros y [->|Hy]%elem_of_cons; [done | by apply Hsk].
  - intros Hh Hw Hcover Hsamples.
    induction Hsamples as [|x samples Hx _ IH]; cbn.
    + rewrite decide_False by lia. done.
    + rewrite decide_False by lia.
      rewrite decide_False; [done|]. intros Hn. apply Hn. by apply Hcover.
Qed.

Lemma make_random_move_spec_witness :
  let ai := mkAI 1 2 {[ (0, 0) ]} ∅ ∅ [] in
  let full := mkAI 1 2 {[ (0, 0) ]} {[ (0, 1) ]} ∅ [] in
  make_random_move [(0, 0)] (init 0 3) = Raise ValueError
  ∧ (make_random_move [(0, 0); (0, 1)] ai = Ret ((0, 1), ai)
     ∧ (0, 1) ∉ moves_made ai)
  ∧ make_random_move [(0, 0); (0, 1); (0, 0)] full = OutOfFuel.
Proof.
  intros ai full. split_and!.
  - apply (make_random_move_spec [(0, 0)] (init 0 3)). left. cbn. lia.
  - reflexivity.
  - pose proof (make_random_move_spec [(0, 0); (0, 1)] ai) as (_ & Hret & _).
    by destruct (Hret (0, 1) ai eq_refl) as (_ & ? & _).
  - apply (make_random_move_spec [(0, 0); (0, 1); (0, 0)] full).
    + cbn. lia.
    + cbn. lia.
    + intros [i j] [Hi Hj]. cbn in Hi, Hj.
      assert (i = 0) as -> by lia.
      assert (j = 0 ∨ j = 1) as [-> | ->] by lia; cbn; set_solver.
    + repeat constructor; cbn; lia.
Defined.

(** ** The board of a game *)

Lemma board_at_set_mine (g : Minesweeper) (i j i' j' : Z) :
  well_shaped g →
  0 ≤ i < game_height g → 0 ≤ j < game_width g → 0 ≤ i' → 0 ≤ j' →
  board_at (set_mine g i j) i' j'
  = if decide ((i', j') = (i, j)) then true else board_at g i' j'.
Proof.
  intros [Hlen Hrows] Hi Hj Hi' Hj'. unfold board_at, set_mine. cbn.
  destruct (decide (Z.to_nat i' = Z.to_nat i)) as [Heq|Hne].
  - assert (i' = i) as -> by lia.
    rewrite list_lookup_alter_eq.
    destruct (board g !! Z.to_nat i) as [row|] eqn:Hrow.
    2:{ apply lookup_ge_None in Hrow. lia. }
    cbn. assert (length row = Z.to_nat (game_width g)) as Hrl.
    { rewrite Forall_forall in Hrows. apply Hrows.
      by eapply list_elem_of_lookup_2. }
    destruct (decide (Z.to_nat j' = Z.to_nat j)) as [Heqj|Hnej].
    + assert (j' = j) as -> by lia. rewrite decide_True by done.
      rewrite list_lookup_insert_eq by lia. done.
    + rewrite decide_False by (intros [=]; lia).
      by rewrite list_lookup_insert_ne.
  - rewrite decide_False by (intros [=]; lia).
    by rewrite list_lookup_alter_ne.
Qed.

Lemma well_shaped_set_mine g i j : well_shaped g → well_shaped (set_mine g i j).
Proof.
  intros [Hlen Hrows]. split; cbn.
  - by rewrite length_alter.
  - rewrite Forall_forall in Hrows. apply Forall_forall. intros row Hrow.
    apply list_elem_of_lookup in Hrow as [k Hk].
    destruct (decide (Z.to_nat i = k)) as [<-|Hne].
    + rewrite list_lookup_alter_eq in Hk.
      destruct (board g !! Z.to_nat i) as [row0|] eqn:Hrow0; [|done].
      injection Hk as <-. rewrite length_insert. apply Hrows.
      by eapply list_elem_of_lookup_2.
    + rewrite list_lookup_alter_ne in Hk by done. apply Hrows.
      by eapply list_elem_of_lookup_2.
Qed.

Lemma well_shaped_empty_board h w :
  well_shaped (mkMinesweeper h w (empty_board h w)).
Proof.
  split; cbn; unfold empty_board.
  - by rewrite length_replicate.
  - apply Forall_forall. intros row ->%elem_of_replicate_inv.
    by rewrite length_replicate.
Qed.

Lemma board_at_empty_board h w i j :
  board_at (mkMinesweeper h w (empty_board h w)) i j = false.
Proof.
  unfold board_at, empty_board. cbn.
  destruct (replicate _ _ !! Z.to_nat i) as [row|] eqn:Hrow; [|done].
  apply lookup_replicate in Hrow as [-> _]. cbn.
  destruct (replicate _ _ !! Z.to_nat j) as [b|] eqn:Hb; [|done].
  by apply lookup_replicate in Hb as [-> _].
Qed.

Lemma placed_set_mine g ms i j :
  placed g ms → in_range (game_height g) (game_width g) (i, j) →
  placed (set_mine g i j) ({[ (i, j) ]} ∪ ms).
Proof.
  intros (Hws & Hlay & Hin) [Hi Hj]. cbn in Hi, Hj. split_and!.
  - by apply well_shaped_set_mine.
  - intros i' j' Hi' Hj'. cbn in Hi', Hj'.
    rewrite board_at_set_mine by (done || lia).
    case_decide as Heq.
    + injection Heq as -> ->. set_solver.
    + rewrite (Hlay i' j') by done. set_solver.
  - intros c [->%elem_of_singleton | Hc]%elem_of_union; [done|].
    by apply Hin.
Qed.

Lemma place_mines_placed samples target : ∀ g ms g' ms',
  Forall (in_range (game_height g) (game_width g)) samples →
  placed g ms →
  place_mines samples target g ms = Ret (g', ms') →
  placed g' ms' ∧ len ms' = target
  ∧ game_height g' = game_height g ∧ game_width g' = game_width g.
Proof.
  induction samples as [|[i j] samples IH]; intros g ms g' ms' Hs Hp; cbn.
  - case_decide; [by intros [= <- <-]|]. by case_decide.
  - case_decide; [by intros [= <- <-]|]. case_decide; [done|].
    apply Forall_cons in Hs as [Hc Hs].
    destruct (board_at g i j) eqn:Hb.
    + by apply IH.
    + intros Hrun. apply IH in Hrun as (? & ? & ? & ?); [done | done |].
      by apply placed_set_mine.
Qed.

(** X12: when the constructor of [Minesweeper] returns, the game has the
    height and width asked for, a well-shaped board, exactly [mines]
    mines, all inside the grid, the board marks exactly the cells of
    [self.mines], and no mine is found yet. *)
Theorem new_game_spec
    (samples : list Cell) (h w target : Z) (gs : MinesweeperGame) :
  Forall (in_range h w) samples →
  new_game samples h w target = Ret gs →
  game_height (game gs) = h ∧ game_width (game gs) = w
  ∧ well_shaped (game gs)
  ∧ len (game_mines gs) = target
  ∧ layout_of (game gs) (game_mines gs)
  ∧ (∀ c, c ∈ game_mines gs → in_range h w c)
  ∧ mines_found gs = ∅.
Proof.
  intros Hs. unfold new_game.
  destruct (place_mines samples target _ ∅) as [[g ms]| |] eqn:Hrun;
    [|done..].
  cbn. intros [= <-]. cbn.
  apply place_mines_placed in Hrun as ((? & ? & Hin) & ? & Hh & Hw).
  - cbn in Hh, Hw. rewrite Hh, Hw in Hin. done.
  - done.
  - split_and!; [apply well_shaped_empty_board | | set_solver].
    intros i j _ _. rewrite board_at_empty_board. set_solver.
Qed.

Lemma new_game_spec_witness :
  ∃ gs, new_game [(0, 1); (0, 1); (1, 0)] 2 2 2 = Ret gs
        ∧ game_mines gs = {[ (0, 1); (1, 0) ]}
        ∧ len (game_mines gs) = 2
        ∧ layout_of (game gs) (game_mines gs).
Proof.
  eexists. split; [by vm_compute|]. split; [by vm_compute|].
  edestruct (new_game_spec [(0, 1); (0, 1); (1, 0)] 2 2 2)
    as (_ & _ & _ & Hlen & Hlay & _).
  - repeat constructor; cbn; lia.
  - by vm_compute.
  - split; [exact Hlen | exact Hlay].
Defined.

(** *** Requests that cannot be met *)

Lemma length_bind_const {A B} (f : A → list B) (n : nat) (l : list A) :
  (∀ x, length (f x) = n) → length (l ≫= f) = (length l * n)%nat.
Proof.
  intros Hf. induction l as [|x l IH]; csimpl; [done|].
  by rewrite length_app, Hf, IH.
Qed.

Lemma grid_cells_length h w :
  length (grid_cells h w) = (Z.to_nat h * Z.to_nat w)%nat.
Proof.
  unfold grid_cells. rewrite (length_bind_const _ (Z.to_nat w)).
  - by rewrite length_seqZ.
  - intros i. by rewrite length_fmap, length_seqZ.
Qed.

Lemma grid_cells_NoDup h w : NoDup (grid_cells h w).
Proof.
  unfold grid_cells. apply NoDup_bind.
  - intros i1 i2 c _ _ (? & -> & _)%list_elem_of_fmap
      (? & [= ? _] & _)%list_elem_of_fmap. done.
  - intros i _. apply NoDup_fmap_2; [|apply NoDup_seqZ].
    intros ?? [=]. done.
  - apply NoDup_seqZ.
Qed.

Lemma elem_of_grid_cells h w (c : Z * Z) :
  c ∈ grid_cells h w ↔ in_range h w c.
Proof.
  unfold grid_cells, in_range. rewrite list_elem_of_bind. split.
  - intros (i & (j & -> & Hj)%list_elem_of_fmap & Hi).
    apply elem_of_seqZ in Hi, Hj. cbn. lia.
  - intros [Hi Hj]. exists c.1. split.
    + apply list_elem_of_fmap. exists c.2. split; [by destruct c|].
      apply elem_of_seqZ. lia.
    + apply elem_of_seqZ. lia.
Qed.

(** No more cells than the grid has. *)
Lemma in_range_len (h w : Z) (ms : gset Cell) :
  0 ≤ h → 0 ≤ w → (∀ c, c ∈ ms → in_range h w c) → len ms ≤ h * w.
Proof.
  intros Hh Hw Hin.
  transitivity (len (list_to_set (grid_cells h w))).
  - apply len_subseteq. intros c Hc.
    apply elem_of_list_to_set, elem_of_grid_cells. by apply Hin.
  - rewrite len_list_to_set by apply grid_cells_NoDup.
    rewrite grid_cells_length. lia.
Qed.

Lemma place_mines_never samples target : ∀ g ms,
  0 < game_height g → 0 < game_width g →
  target < 0 ∨ game_height g * game_width g < target →
  Forall (in_range (game_height g) (game_width g)) samples →
  placed g ms →
  place_mines samples target g ms = OutOfFuel.
Proof.
  induction samples as [|[i j] samples IH]; intros g ms Hh Hw Ht Hs Hp.
  - cbn. assert (len ms ≠ target) as Hne.
    { destruct Hp as (_ & _ & Hin).
      pose proof (in_range_len (game_height g) (game_width g) ms
                    ltac:(lia) ltac:(lia) Hin).
      pose proof (len_nonneg ms). lia. }
    rewrite decide_False by done. rewrite decide_False by lia. done.
  - cbn. assert (len ms ≠ target) as Hne.
    { destruct Hp as (_ & _ & Hin).
      pose proof (in_range_len (game_height g) (game_width g) ms
                    ltac:(lia) ltac:(lia) Hin).
      pose proof (len_nonneg ms). lia. }
    rewrite decide_False by done. rewrite decide_False by lia.
    apply Forall_cons in Hs as [Hc Hs].
    destruct (board_at g i j); [by apply IH|].
    apply IH; [done.. | by apply placed_set_mine].
Qed.

(** X13: the constructor of [Minesweeper] does not end when it is asked
    for a negative number of mines or for more mines than the grid has
    cells: whatever cells the random generator draws, the loop that
    places the mines goes on. *)
Theorem new_game_never_returns (samples : list Cell) (h w target : Z) :
  0 < h → 0 < w →
  target < 0 ∨ h * w < target →
  Forall (in_range h w) samples →
  new_game samples h w target = OutOfFuel.
Proof.
  intros Hh Hw Ht Hs. unfold new_game.
  rewrite place_mines_never; [done.. |].
  split_and!; [apply well_shaped_empty_board | | set_solver].
  intros i j _ _. rewrite board_at_empty_board. set_solver.
Qed.

Lemma new_game_never_returns_witness :
  new_game [(0, 0); (0, 1); (0, 0); (0, 1)] 1 2 3 = OutOfFuel
  ∧ new_game [(0, 0); (0, 1)] 1 2 (-1) = OutOfFuel.
Proof.
  split.
  - apply new_game_never_returns; [lia | lia | right; lia |].
    repeat constructor; cbn; lia.
  - apply new_game_never_returns; [lia | lia | left; lia |].
    repeat constructor; cbn; lia.
Defined.

(** X14: on a grid without cells (height or width not positive) the
    constructor returns a game without mines when asked for 0 mines and
    raises [ValueError], from [randrange], when asked for any other
    number. *)
Theorem new_game_empty_grid (samples : list Cell) (h w target : Z) :
  h ≤ 0 ∨ w ≤ 0 →
  (target = 0 →
     new_game samples h w target
     = Ret (mkGame (mkMinesweeper h w (empty_board h w)) ∅ ∅))
  ∧ (target ≠ 0 → new_game samples h w target = Raise ValueError).
Proof.
  intros Hempty. unfold new_game. split.
  - intros ->. destruct samples as [|[i j] samples]; cbn;
      by rewrite decide_True by (by rewrite len_empty).
  - intros Hne. destruct samples as [|[i j] samples]; cbn;
      rewrite decide_False by (by rewrite len_empty);
      by rewrite decide_True.
Qed.

Lemma new_game_empty_grid_witness :
  new_game [(0, 0)] 0 3 1 = Raise ValueError
  ∧ board (mkMinesweeper 0 3 (empty_board 0 3)) = [].
Proof.
  split; [|done].
  apply (new_game_empty_grid [(0, 0)] 0 3 1); [left; lia | lia].
Defined.

Lemma place_mines_returns samples target : ∀ g ms,
  placed g ms →
  Forall (in_range (game_height g) (game_width g)) samples →
  len ms ≤ target ≤ len (ms ∪ list_to_set samples) →
  ∃ g' ms', place_mines samples target g ms = Ret (g', ms').
Proof.
  induction samples as [|[i j] samples IH]; intros g ms Hp Hs Ht; cbn.
  - replace (ms ∪ list_to_set []) with ms in Ht by set_solver.
    rewrite decide_True by lia. eauto.
  - case_decide as Hlen; [eauto|].
    apply Forall_cons in Hs as [[Hi Hj] Hs]. cbn in Hi, Hj.
    rewrite decide_False by lia.
    pose proof Hp as (_ & Hlay & _). specialize (Hlay i j Hi Hj).
    destruct (board_at g i j) eqn:Hb.
    + apply IH; [done..|].
      replace (ms ∪ list_to_set samples)
        with (ms ∪ list_to_set ((i, j) :: samples)); [done|].
      assert ((i, j) ∈ ms) by (by apply Hlay). set_solver.
    + assert ((i, j) ∉ ms) as Hnew.
      { intros Hin%Hlay. done. }
      apply IH; [by apply placed_set_mine | done |].
      replace ({[(i, j)]} ∪ ms ∪ list_to_set samples)
        with (ms ∪ list_to_set ((i, j) :: samples)) by set_solver.
      rewrite (union_comm_L {[(i, j)]} ms), len_union, len_singleton
        by set_solver. lia.
Qed.

(** X15: the constructor of [Minesweeper] returns as soon as the random
    generator has drawn as many different cells as mines are asked for:
    for a number of mines that is not negative and a list of draws from
    the grid with at least that many different cells, it returns a
    game. *)
Theorem new_game_returns (samples : list Cell) (h w target : Z) :
  0 ≤ target →
  Forall (in_range h w) samples →
  target ≤ len (list_to_set samples) →
  ∃ gs, new_game samples h w target = Ret gs.
Proof.
  intros Ht Hs Hdistinct. unfold new_game.
  destruct (place_mines_returns samples target
              (mkMinesweeper h w (empty_board h w)) ∅)
    as (g' & ms' & ->); [| done | | by eexists].
  - split_and!; [apply well_shaped_empty_board | | set_solver].
    intros i j _ _. rewrite board_at_empty_board. set_solver.
  - rewrite len_empty, (left_id_L ∅ (∪)). lia.
Qed.

Lemma new_game_returns_witness :
  ∃ gs, new_game [(0, 1); (0, 1); (1, 0)] 2 2 2 = Ret gs.
Proof.
  apply new_game_returns; [lia | repeat constructor; cbn; lia |].
  by vm_compute.
Defined.

(** ** Reading the board *)

Lemma list_getitem_spec {A} (l : list A) (i : Z) :
  (is_Some (list_getitem l i)
     ↔ - Z.of_nat (length l) ≤ i < Z.of_nat (length l))
  ∧ (0 ≤ i → list_getitem l i = l !! Z.to_nat i)
  ∧ (- Z.of_nat (length l) ≤ i < 0 →
     list_getitem l i = list_getitem l (i + Z.of_nat (length l))).
Proof.
  unfold list_getitem. split_and!.
  - repeat case_decide; rewrite ?lookup_lt_is_Some; try lia.
    split; [intros [? [=]] | lia].
  - intros Hi. by rewrite decide_True.
  - intros Hi. rewrite decide_False, decide_True, decide_True by lia.
    f_equal. lia.
Qed.

(** X16: [is_mine] has no bounds test and reads the board with Python's
    indexing.  On a well-shaped board of height [h] and width [w] it
    answers for the cells [(i, j)] with [-h <= i < h] and [-w <= j < w]
    and raises [IndexError] for all others; inside the grid it answers
    what the board holds, and a negative row or column is counted from
    the end: [(i, j)] with [i < 0] is read as [(i + h, j)]. *)
Theorem is_mine_indexing (g : Minesweeper) (i j : Z) :
  well_shaped g → 0 ≤ game_height g → 0 ≤ game_width g →
  (is_Some (is_mine g (i, j))
     ↔ (- game_height g ≤ i < game_height g)
       ∧ (- game_width g ≤ j < game_width g))
  ∧ (0 ≤ i < game_height g → 0 ≤ j < game_width g →
     is_mine g (i, j) = Some (board_at g i j))
  ∧ (- game_height g ≤ i < 0 →
     is_mine g (i, j) = is_mine g (i + game_height g, j))
  ∧ (- game_width g ≤ j < 0 →
     (- game_height g ≤ i < game_height g) →
     is_mine g (i, j) = is_mine g (i, j + game_width g)).
Proof.
  intros [Hlen Hrows] Hh Hw. unfold is_mine. cbn [fst snd].
  assert (Z.of_nat (length (board g)) = game_height g) as Hlen' by lia.
  assert (∀ k row, list_getitem (board g) k = Some row →
                   Z.of_nat (length row) = game_width g) as Hrow.
  { intros k row Hk. rewrite Forall_forall in Hrows.
    assert (row ∈ board g) as Hin; [|rewrite (Hrows row Hin); lia].
    unfold list_getitem in Hk. repeat case_decide; [| |done];
      by eapply list_elem_of_lookup_2. }
  pose proof (list_getitem_spec (board g) i) as (Hsome & Hpos & Hneg).
  rewrite Hlen' in Hsome, Hneg.
  split_and!.
  - destruct (list_getitem (board g) i) as [row|] eqn:Hgi; cbn.
    + pose proof (list_getitem_spec row j) as (Hsj & _).
      rewrite (Hrow i row Hgi) in Hsj. rewrite Hsj.
      assert (- game_height g ≤ i < game_height g) by (apply Hsome; eauto).
      tauto.
    + split; [intros [? [=]]|]. intros [Hi _]. apply Hsome in Hi as [? [=]].
  - intros Hi Hj. unfold board_at. rewrite Hpos by lia.
    destruct (board g !! Z.to_nat i) as [row|] eqn:Hgi; cbn.
    + pose proof (list_getitem_spec row j) as (_ & Hpj & _).
      rewrite Hpj by lia.
      destruct (row !! Z.to_nat j) eqn:Hgj; [done|].
      apply lookup_ge_None in Hgj.
      assert (Z.of_nat (length row) = game_width g); [|lia].
      apply (Hrow i). rewrite Hpos by lia. done.
    + apply lookup_ge_None in Hgi. lia.
  - intros Hi. by rewrite Hneg.
  - intros Hj Hi.
    destruct (list_getitem (board g) i) as [row|] eqn:Hgi; cbn; [|done].
    pose proof (list_getitem_spec row j) as (_ & _ & Hnj).
    rewrite (Hrow i row Hgi) in Hnj. by apply Hnj.
Qed.

Lemma is_mine_indexing_witness :
  is_mine crowded_game (-1, -2) = is_mine crowded_game (2, 1)
  ∧ is_mine crowded_game (1, 1) = Some true
  ∧ is_mine crowded_game (3, 0) = None.
Proof.
  assert (well_shaped crowded_game) as Hws.
  { split; [done|]. repeat constructor. }
  pose proof (is_mine_indexing crowded_game (-1) (-2) Hws
                ltac:(cbn; lia) ltac:(cbn; lia)) as (_ & _ & Hrow & _).
  pose proof (is_mine_indexing crowded_game 2 (-2) Hws
                ltac:(cbn; lia) ltac:(cbn; lia)) as (_ & _ & _ & Hcol).
  pose proof (is_mine_indexing crowded_game 1 1 Hws
                ltac:(cbn; lia) ltac:(cbn; lia)) as (_ & Hin & _).
  pose proof (is_mine_indexing crowded_game 3 0 Hws
                ltac:(cbn; lia) ltac:(cbn; lia)) as (Hsome & _).
  split_and!.
  - rewrite Hrow by (cbn; lia). apply Hcol; cbn; lia.
  - apply Hin; cbn; lia.
  - destruct (is_mine crowded_game (3, 0)) as [b|]; [|done].
    assert (is_Some (Some b)) as Hs by eauto.
    apply Hsome in Hs. cbn in Hs. lia.
Defined.

(** X17: a new game is won from the start exactly when it has no mines:
    [won()] compares [mines_found], empty after the constructor, with
    [mines]. *)
Theorem new_game_won
    (samples : list Cell) (h w target : Z) (gs : MinesweeperGame) :
  new_game samples h w target = Ret gs →
  (won gs = true ↔ target = 0).
Proof.
  unfold new_game.
  destruct (place_mines samples target _ ∅) as [[g ms]| |] eqn:Hrun;
    [|done..].
  cbn. intros [= <-]. unfold won. cbn.
  assert (len ms = target) as <-.
  { clear -Hrun. revert Hrun.
    generalize (mkMinesweeper h w (empty_board h w)) (∅ : gset Cell).
    induction samples as [|[i j] samples IH]; intros g0 ms0; cbn.
    - case_decide; [by intros [= <- <-]|]. by case_decide.
    - case_decide; [by intros [= <- <-]|]. case_decide; [done|].
      destruct (board_at g0 i j); apply IH. }
  rewrite bool_decide_eq_true, len_zero_iff. split; congruence.
Qed.

Lemma new_game_won_witness :
  ∃ gs, new_game [] 2 2 0 = Ret gs ∧ won gs = true.
Proof.
  eexists. split; [reflexivity|].
  by apply (new_game_won [] 2 2 0 _ eq_refl).
Defined.

(** ** Sentences and the layout *)

Lemma sentence_mark_mine_strip c s :
  Sentence.mark_mine c s = strip_mine {[ c ]} s.
Proof.
  rewrite <- (strip_mine_empty s) at 1.
  rewrite mark_mine_strip_mine by set_solver. f_equal. set_solver.
Qed.

Lemma sentence_mark_safe_strip c s :
  Sentence.mark_safe c s = strip_safe {[ c ]} s.
Proof.
  rewrite <- (strip_safe_empty s) at 1.
  rewrite mark_safe_strip_safe by set_solver. f_equal. set_solver.
Qed.

(** X18: a sentence that is true of a layout (its count is the number of
    its cells that are mines) has a count between 0 and its number of
    cells, stays true when one of the layout's mines is marked as a mine
    and when a cell that is no mine is marked safe. *)
Theorem sentence_marking_keeps_truth (M : gset Cell) (s : Sentence) (c : Cell) :
  count s = len (cells s ∩ M) →
  0 ≤ count s ≤ len (cells s)
  ∧ (c ∈ M →
     count (Sentence.mark_mine c s) = len (cells (Sentence.mark_mine c s) ∩ M))
  ∧ (c ∉ M →
     count (Sentence.mark_safe c s) = len (cells (Sentence.mark_safe c s) ∩ M)).
Proof.
  intros Htrue. split; [|split].
  - rewrite Htrue. split; [apply len_nonneg | apply len_subseteq; set_solver].
  - intros Hc. rewrite sentence_mark_mine_strip.
    apply consistent_strip_mine; [set_solver | done].
  - intros Hc. rewrite sentence_mark_safe_strip.
    apply consistent_strip_safe; [set_solver | done].
Qed.

Lemma sentence_marking_keeps_truth_witness :
  let s := mkSentence {[ (0, 2); (2, 1); (2, 2) ]} 1 in
  count (Sentence.mark_mine (2, 2) s) = 0
  ∧ count (Sentence.mark_safe (0, 2) s)
    = len (cells (Sentence.mark_safe (0, 2) s) ∩ {[ (2, 2) ]}).
Proof.
  intros s.
  destruct (sentence_marking_keeps_truth {[ (2, 2) ]} s (2, 2))
    as (_ & Hmine & _); [by vm_compute|].
  destruct (sentence_marking_keeps_truth {[ (2, 2) ]} s (0, 2))
    as (_ & _ & Hsafe); [by vm_compute|].
  split.
  - rewrite Hmine by set_solver. by vm_compute.
  - apply Hsafe. compute_done.
Defined.

(** X19: for a sentence that is true of a layout, [known_mines] answers
    with the cells exactly when all of them are mines, and [known_safes]
    exactly when none is; so whatever the two methods return is right. *)
Theorem sentence_conclusions_exact (M : gset Cell) (s : Sentence) :
  count s = len (cells s ∩ M) →
  (Sentence.known_mines s = Some (cells s) ↔ cells s ⊆ M)
  ∧ (Sentence.known_safes s = Some (cells s) ↔ cells s ## M)
  ∧ (∀ X, Sentence.known_mines s = Some X → X ⊆ M)
  ∧ (∀ X, Sentence.known_safes s = Some X → X ## M).
Proof.
  intros Htrue.
  assert (count s = len (cells s) ↔ cells s ⊆ M) as Hm.
  { rewrite Htrue. split.
    - intros Heq. assert (cells s ∩ M = cells s) as Hc;
        [apply len_subseteq_eq; [set_solver | lia] | set_solver].
    - intros Hsub. f_equal. set_solver. }
  assert (count s = 0 ↔ cells s ## M) as Hs.
  { rewrite Htrue, len_zero_iff. set_solver. }
  unfold Sentence.known_mines, Sentence.known_safes. split_and!.
  - rewrite <- Hm. case_decide; naive_solver.
  - rewrite <- Hs. case_decide; naive_solver.
  - intros X. case_decide; [|done]. intros [= <-]. by apply Hm.
  - intros X. case_decide; [|done]. intros [= <-]. by apply Hs.
Qed.

Lemma sentence_conclusions_exact_witness :
  Sentence.known_mines (mkSentence {[ (2, 2) ]} 1) = Some {[ (2, 2) ]}
  ∧ Sentence.known_safes (mkSentence {[ (0, 2) ]} 0) = Some {[ (0, 2) ]}.
Proof.
  destruct (sentence_conclusions_exact {[ (2, 2) ]} (mkSentence {[ (2, 2) ]} 1))
    as (Hmines & _); [by vm_compute|].
  destruct (sentence_conclusions_exact {[ (2, 2) ]} (mkSentence {[ (0, 2) ]} 0))
    as (_ & Hsafes & _); [by vm_compute|].
  split; [apply Hmines | apply Hsafes]; cbn; set_solver.
Defined.

(** ** Observations that are resolved at once *)

Lemma propagate_grows fuel ai ai' :
  propagate fuel ai = Ret ai' →
  safes ai ⊆ safes ai' ∧ mines ai ⊆ mines ai'.
Proof.
  apply (propagate_invariant (λ st, safes ai ⊆ safes st ∧ mines ai ⊆ mines st));
    [|done].
  intros st [??]. pose proof (pass_state_grows st) as (? & ? & _). set_solver.
Qed.

(** X20: with a count of 0, [add_knowledge] makes all unexplored
    neighbours of the cell safe; with any other count that is at least
    their number (as any count above 8 is), it makes all of them mines;
    in both cases they are in [safes] (in [mines]) when the call returns,
    and no sentence is added for the observation. *)
Theorem add_knowledge_resolves_at_once
    (fuel : nat) (cell : Cell) (cnt : Z) (ai ai' : MinesweeperAI) :
  add_knowledge fuel cell cnt ai = Ret ai' →
  let unexplored := find_unexplored_neighbors (revealed cell ai) cell in
  (cnt = 0 → unexplored ⊆ safes ai')
  ∧ (cnt ≠ 0 → len unexplored ≤ cnt → unexplored ⊆ mines ai')
  ∧ (cnt = 0 ∨ len unexplored ≤ cnt →
     length (knowledge (ingest cell cnt ai)) = length (knowledge ai)).
Proof.
  intros Hrun unexplored. unfold add_knowledge in Hrun.
  apply propagate_grows in Hrun as [Hs Hm].
  unfold ingest in *. cbv zeta in *. fold unexplored in Hs, Hm |- *.
  split_and!.
  - intros Hz. rewrite decide_True in Hs by done.
    rewrite mark_safes_eq in Hs. cbn in Hs. set_solver.
  - intros Hnz Hle. rewrite decide_False, decide_True in Hm by done.
    rewrite mark_mines_eq in Hm. cbn in Hm. set_solver.
  - intros Hcase. repeat case_decide; [| |lia].
    + rewrite mark_safes_eq. cbn. by rewrite !length_fmap.
    + rewrite mark_mines_eq. cbn. by rewrite !length_fmap.
Qed.

Lemma add_knowledge_resolves_at_once_witness :
  ∃ ai', add_knowledge 1 (0, 0) 9 (init 3 3) = Ret ai'
         ∧ {[ (0, 1); (1, 0); (1, 1) ]} ⊆ mines ai'.
Proof.
  eexists. split; [by vm_compute|].
  pose proof (add_knowledge_resolves_at_once 1 (0, 0) 9 (init 3 3) _
                ltac:(by vm_compute)) as (_ & Hmines & _).
  cbv zeta in Hmines.
  replace (find_unexplored_neighbors (revealed (0, 0) (init 3 3)) (0, 0))
    with ({[ (0, 1); (1, 0); (1, 1) ]} : gset Cell) in Hmines
    by (by vm_compute).
  apply Hmines; [lia | by vm_compute].
Defined.

(** ** Safe moves in a sound state *)

(** X21: in a state that is sound for a layout, the cell that
    [make_safe_move] returns is no mine of the layout and no move made
    before. *)
Theorem make_safe_move_sound (M : gset Cell) (ai : MinesweeperAI) (c : Cell) :
  sound M ai →
  (make_safe_move ai).1 = Some c →
  (c ∉ M) ∧ (c ∉ moves_made ai) ∧ c ∈ safes ai.
Proof.
  intros (_ & _ & Hs & _). unfold make_safe_move, set_pop.
  case_decide; [done|]. cbn.
  destruct (elements (safes ai ∖ moves_made ai)) as [|x l] eqn:He; [done|].
  cbn. intros [= ->].
  assert (c ∈ safes ai ∖ moves_made ai) as Hc.
  { apply elem_of_elements. rewrite He. by left. }
  set_solver.
Qed.

Lemma make_safe_move_sound_witness :
  (make_safe_move scenario_loop_entry_3).1 = Some (0, 1)
  ∧ (0, 1) ∉ ({[ (2, 2) ]} : gset Cell).
Proof.
  split; [by vm_compute|].
  eapply (make_safe_move_sound {[ (2, 2) ]} scenario_loop_entry_3 (0, 1)).
  - split_and!; [|compute_done..].
    intros s [->|Hs]%elem_of_cons; [by vm_compute|].
    apply list_elem_of_singleton in Hs as ->. by vm_compute.
  - by vm_compute.
Defined.

(** ** The text dump *)

Lemma count_char_app a s1 s2 :
  count_char a (s1 +:+ s2) = (count_char a s1 + count_char a s2)%nat.
Proof.
  induction s1 as [|b s1 IH]; [done|].
  change (String b s1 +:+ s2) with (String b (s1 +:+ s2)).
  cbn [count_char]. rewrite IH. lia.
Qed.

Lemma string_length_app s1 s2 :
  String.length (s1 +:+ s2) = (String.length s1 + String.length s2)%nat.
Proof.
  induction s1 as [|b s1 IH]; [done|].
  change (String b s1 +:+ s2) with (String b (s1 +:+ s2)).
  cbn [String.length]. by rewrite IH.
Qed.

Lemma border_facts g :
  count_char mine_char (border g) = 0%nat
  ∧ String.length (border g) = (2 * Z.to_nat (game_width g) + 1)%nat.
Proof.
  unfold border. rewrite count_char_app, string_length_app.
  induction (Z.to_nat (game_width g)) as [|n [IH1 IH2]]; [done|].
  cbn [string_repeat]. rewrite count_char_app, string_length_app.
  cbn in *. split; lia.
Qed.

Lemma row_line_facts g i :
  count_char mine_char (row_line g i)
  = length (filter (λ j, board_at g i j = true) (seqZ 0 (game_width g)))
  ∧ String.length (row_line g i) = (2 * Z.to_nat (game_width g) + 1)%nat.
Proof.
  unfold row_line. rewrite <- (length_seqZ 0 (game_width g)).
  induction (seqZ 0 (game_width g)) as [|j l [IH1 IH2]]; [done|].
  cbn [foldr length]. rewrite count_char_app, string_length_app, filter_cons.
  rewrite IH1, IH2. destruct (board_at g i j).
  - rewrite decide_True by done.
    replace (count_char mine_char "|X") with 1%nat by (by vm_compute).
    cbn [String.length length]. lia.
  - rewrite decide_False by done.
    replace (count_char mine_char "| ") with 0%nat by (by vm_compute).
    cbn [String.length length]. lia.
Qed.

Lemma print_lines_count g :
  sum_list (count_char mine_char <$> print_lines g)
  = length (filter (λ c, board_at g c.1 c.2 = true)
                   (grid_cells (game_height g) (game_width g))).
Proof.
  unfold print_lines, grid_cells.
  rewrite fmap_app, sum_list_with_app. cbn [fmap list_fmap sum_list_with].
  rewrite (proj1 (border_facts g)).
  induction (seqZ 0 (game_height g)) as [|i l IH]; [done|].
  csimpl. rewrite (proj1 (border_facts g)), (proj1 (row_line_facts g i)).
  rewrite filter_app, length_app.
  replace (filter (λ c : Z * Z, board_at g c.1 c.2 = true)
                  (pair i <$> seqZ 0 (game_width g)))
    with (pair i <$> filter (λ j, board_at g i j = true)
                            (seqZ 0 (game_width g))).
  - rewrite length_fmap. change (id 0 + 0)%nat with 0%nat in IH. lia.
  - clear IH. induction (seqZ 0 (game_width g)) as [|j k IHk]; [done|].
    csimpl. rewrite !filter_cons. cbn. case_decide; csimpl; by rewrite IHk.
Qed.

Lemma layout_len g M :
  layout_of g M →
  (∀ c, c ∈ M → in_range (game_height g) (game_width g) c) →
  Z.of_nat (length (filter (λ c, board_at g c.1 c.2 = true)
                           (grid_cells (game_height g) (game_width g))))
  = len M.
Proof.
  intros Hlay Hin.
  rewrite <- len_list_to_set by apply NoDup_filter, grid_cells_NoDup.
  f_equal. apply set_eq. intros [i j].
  rewrite elem_of_list_to_set, list_elem_of_filter, elem_of_grid_cells.
  cbn. split.
  - intros [Hb [Hi Hj]]. by apply Hlay.
  - intros Hc. pose proof (Hin _ Hc) as [Hi Hj]. cbn in Hi, Hj.
    split; [by apply Hlay | done].
Qed.

(** X23: [print] writes [2 * height + 1] lines of [2 * width + 1]
    characters each, and the letter X occurs in them exactly as often as
    the board has mines. *)
Theorem print_shows_mines (g : Minesweeper) (M : gset Cell) :
  layout_of g M →
  (∀ c, c ∈ M → in_range (game_height g) (game_width g) c) →
  length (print_lines g) = (2 * Z.to_nat (game_height g) + 1)%nat
  ∧ Forall (λ line, String.length line = (2 * Z.to_nat (game_width g) + 1)%nat)
           (print_lines g)
  ∧ Z.of_nat (sum_list (count_char mine_char <$> print_lines g)) = len M.
Proof.
  intros Hlay Hin. split_and!.
  - unfold print_lines. rewrite length_app.
    rewrite (length_bind_const _ 2) by done. rewrite length_seqZ. cbn. lia.
  - unfold print_lines. apply Forall_app. split.
    + apply Forall_forall. intros line (i & Hl & _)%list_elem_of_bind.
      apply elem_of_cons in Hl as [-> | ->%list_elem_of_singleton].
      * apply border_facts.
      * apply row_line_facts.
    + repeat constructor. apply border_facts.
  - rewrite print_lines_count. by apply layout_len.
Qed.

Lemma print_shows_mines_witness :
  print_lines crowded_game
  = ["-------"; "| |X| |"; "-------"; "|X|X| |"; "-------"; "| | | |";
     "-------"]
  ∧ Z.of_nat (sum_list (count_char mine_char <$> print_lines crowded_game)) = 3.
Proof.
  split; [reflexivity|].
  destruct (print_shows_mines crowded_game crowded_layout) as (_ & _ & Hx).
  - exact crowded_layout_of.
  - intros c Hc. unfold crowded_layout in Hc. set_unfold.
    destruct Hc as [[-> | ->] | ->]; split; cbn; lia.
  - rewrite Hx. by vm_compute.
Defined.
